(** * State conflict resolution of [synapse/state.py]

    A shallow embedding of the [StateHandler] class: the per-key lock built
    from chained deferreds, the admission of locally authored events
    ([handle_new_event]), the admission of replicated state
    ([handle_new_state]) and the recursive branch walk with its three ordered
    comparators ([_handle_new_state]).

    The persistence service, the replication layer and the caller's callbacks
    are external collaborators: they are modelled as functions over an
    abstract environment, and every call the handler issues to them is
    recorded in a log.  The first part of the file holds the definitions, the
    second part the properties. *)

From Stdlib Require Import ZArith Ascii String List Bool Lia.
From Stdlib Require OrderedTypeEx.
From stdpp Require Import base decidable countable gmap strings list.

Open Scope Z_scope.

(** * Part I: the embedding *)

(** ** SHA-1, as computed by [hashlib.sha1(s).hexdigest()] *)

Module SHA1.

Definition mask32 : Z := 4294967295.

Definition add32 (a b : Z) : Z := Z.land (a + b) mask32.

Definition rotl (n x : Z) : Z :=
  Z.land (Z.lor (Z.shiftl x n) (Z.shiftr x (32 - n))) mask32.

Definition not32 (x : Z) : Z := Z.lxor x mask32.

Definition bytes_of_string (s : string) : list Z :=
  List.map (fun c => Z.of_N (N_of_ascii c)) (list_ascii_of_string s).

(** the 64-bit big-endian encoding of the message length in bits *)
Definition length_bytes (bits : Z) : list Z :=
  List.map (fun i => Z.land (Z.shiftr bits (8 * i)) 255) [7; 6; 5; 4; 3; 2; 1; 0].

Definition pad (msg : list Z) : list Z :=
  let len := Z.of_nat (length msg) in
  msg ++ [128] ++ repeat 0 (Z.to_nat ((55 - len) mod 64)) ++ length_bytes (8 * len).

Fixpoint words (fuel : nat) (bs : list Z) : list Z :=
  match fuel, bs with
  | S fuel', b0 :: b1 :: b2 :: b3 :: rest =>
      (Z.shiftl b0 24 + Z.shiftl b1 16 + Z.shiftl b2 8 + b3) :: words fuel' rest
  | _, _ => []
  end.

Fixpoint blocks (fuel : nat) (ws : list Z) : list (list Z) :=
  match fuel, ws with
  | S fuel', _ :: _ => firstn 16 ws :: blocks fuel' (skipn 16 ws)
  | _, _ => []
  end.

Definition f_k (t a b c d : Z) : Z * Z :=
  if t <? 20 then (Z.lor (Z.land b c) (Z.land (not32 b) d), 1518500249)
  else if t <? 40 then (Z.lxor (Z.lxor b c) d, 1859775393)
  else if t <? 60 then
    (Z.lor (Z.lor (Z.land b c) (Z.land b d)) (Z.land c d), 2400959708)
  else (Z.lxor (Z.lxor b c) d, 3395469782).

Definition state : Type := Z * Z * Z * Z * Z.

(** [window] holds the sixteen schedule words w[t] .. w[t+15] *)
Fixpoint rounds (n : nat) (t : Z) (window : list Z) (st : state) : state :=
  match n with
  | O => st
  | S n' =>
      let '(a, b, c, d, e) := st in
      let w := nth 0 window 0 in
      let w16 :=
        rotl 1 (Z.lxor (Z.lxor (Z.lxor (nth 13 window 0) (nth 8 window 0))
                               (nth 2 window 0)) w) in
      let '(f, k) := f_k t a b c d in
      let temp := add32 (add32 (add32 (add32 (rotl 5 a) f) e) k) w in
      rounds n' (t + 1) (tl window ++ [w16]) (temp, a, rotl 30 b, c, d)
  end.

Definition compress (st : state) (block : list Z) : state :=
  let '(h0, h1, h2, h3, h4) := st in
  let '(a, b, c, d, e) := rounds 80 0 block st in
  (add32 h0 a, add32 h1 b, add32 h2 c, add32 h3 d, add32 h4 e).

Definition init : state :=
  (1732584193, 4023233417, 2562383102, 271733878, 3285377520).

Definition digest (s : string) : state :=
  let bs := pad (bytes_of_string s) in
  let ws := words (length bs) bs in
  fold_left compress (blocks (length ws) ws) init.

Definition hex_digit (n : Z) : ascii :=
  nth (Z.to_nat n) (list_ascii_of_string "0123456789abcdef") "0"%char.

Definition hex_word (w : Z) : string :=
  string_of_list_ascii
    (List.map (fun i => hex_digit (Z.land (Z.shiftr w (4 * i)) 15))
              [7; 6; 5; 4; 3; 2; 1; 0]).

Definition hexdigest (s : string) : string :=
  let '(h0, h1, h2, h3, h4) := digest s in
  (hex_word h0 ++ hex_word h1 ++ hex_word h2 ++ hex_word h3 ++ hex_word h4)%string.

End SHA1.

(** ** Data model *)

(** [KeyStateTuple = namedtuple("KeyStateTuple", ("context", "type", "state_key"))] *)
Record KeyStateTuple := mkKey {
  key_context : string;
  key_type : string;
  key_state_key : string
}.

#[global] Instance KeyStateTuple_eq_dec : EqDecision KeyStateTuple.
Proof. solve_decision. Defined.

#[global] Instance KeyStateTuple_countable : Countable KeyStateTuple.
Proof.
  refine (inj_countable' (fun k => (key_context k, key_type k, key_state_key k))
                         (fun t => mkKey t.1.1 t.1.2 t.2) _).
  intros []; reflexivity.
Defined.

(** The attributes of a PDU that the handler reads.  Two PDUs are [==] when
    they agree on every attribute, as tuples are. *)
Record PDU := mkPDU {
  pdu_id : string;
  origin : string;
  context : string;
  pdu_type : string;
  state_key : string;
  depth : Z;
  power_level : Z;
  prev_state_id : option string;
  prev_state_origin : option string
}.

#[global] Instance PDU_eq_dec : EqDecision PDU.
Proof. solve_decision. Defined.

(** A branch runs from the newest PDU (index 0) to the oldest (index -1). *)
Abbreviation Branch := (list PDU).

(** The event object that [handle_new_event] fills in. *)
Module Event.

Record t := mk {
  room_id : string;
  type : string;
  state_key : string;
  event_id : string;
  prev_events : list string;
  depth : Z;
  prev_state_id : option string;
  prev_state_origin : option string
}.

Definition set_prev_events (v : list string) (e : t) : t :=
  mk (room_id e) (type e) (state_key e) (event_id e) v (depth e)
     (prev_state_id e) (prev_state_origin e).

Definition set_depth (v : Z) (e : t) : t :=
  mk (room_id e) (type e) (state_key e) (event_id e) (prev_events e) v
     (prev_state_id e) (prev_state_origin e).

Definition set_prev_state (i o : string) (e : t) : t :=
  mk (room_id e) (type e) (state_key e) (event_id e) (prev_events e) (depth e)
     (Some i) (Some o).

End Event.

(** The record [get_current_state] answers with. *)
Module CurrentState.

Record t := mk { pdu_id : string; origin : string }.

End CurrentState.

(** ** Exceptions and results *)

Inductive PyExn :=
| AttributeError (attr : string)
| IndexError
| ValueError
| TypeError
| AlreadyCalledError
| Exception (msg : string)
| Failure (msg : string).

(** A pure computation that may raise. *)
Inductive Exc (A : Type) :=
| Ok (a : A)
| Err (e : PyExn).
Arguments Ok {A} a.
Arguments Err {A} e.

Definition exc_bind {A B} (m : Exc A) (k : A -> Exc B) : Exc B :=
  match m with
  | Ok a => k a
  | Err e => Err e
  end.

(** ** The Python primitives the resolver uses *)

(** [l[-1]] *)
Definition py_last {A} (l : list A) : Exc A :=
  match last l with
  | Some x => Ok x
  | None => Err IndexError
  end.

(** [max(x, *rest, key=key)]: the first element carrying the greatest key *)
Fixpoint max_from {A} (key : A -> Z) (best : A) (rest : list A) : A :=
  match rest with
  | [] => best
  | x :: rest' => max_from key (if key best <? key x then x else best) rest'
  end.

(** [max(l, key=key)] raises [ValueError] on an empty sequence *)
Definition py_max {A} (key : A -> Z) (l : list A) : Exc A :=
  match l with
  | [] => Err ValueError
  | x :: rest => Ok (max_from key x rest)
  end.

(** The values the comparators return: integers or hex digests. *)
Inductive Score :=
| SInt (n : Z)
| SStr (s : string).

(** [a < b]; CPython 2 orders every number before every string *)
Definition score_lt (a b : Score) : bool :=
  match a, b with
  | SInt x, SInt y => x <? y
  | SStr x, SStr y => String.ltb x y
  | SInt _, SStr _ => true
  | SStr _, SInt _ => false
  end.

Definition score_gt (a b : Score) : bool := score_lt b a.

(** ** The three comparators *)

Definition _do_power_level_conflict_res (new_branch current_branch : Branch)
  : Exc (Score * Score) :=
  exc_bind (py_max power_level (removelast new_branch)) (fun max_new =>
  exc_bind (py_max power_level (removelast current_branch)) (fun max_current =>
  Ok (SInt (power_level max_new), SInt (power_level max_current)))).

Definition _do_chain_length_conflict_res (new_branch current_branch : Branch)
  : Exc (Score * Score) :=
  Ok (SInt (Z.of_nat (length new_branch)), SInt (Z.of_nat (length current_branch))).

Definition branch_str (b : Branch) : string :=
  String.concat "" (List.map (fun p => (pdu_id p ++ origin p)%string) b).

Definition _do_hash_conflict_res (new_branch current_branch : Branch)
  : Exc (Score * Score) :=
  let new_str := branch_str new_branch in
  let c_str := branch_str current_branch in
  Ok (SStr (SHA1.hexdigest new_str), SStr (SHA1.hexdigest c_str)).

Abbreviation Comparator := (Branch -> Branch -> Exc (Score * Score)).

Definition conflict_res : list Comparator :=
  [ _do_power_level_conflict_res;
    _do_chain_length_conflict_res;
    _do_hash_conflict_res ].

(** The loop [for algo in conflict_res: ...] with the [raise] that follows it. *)
Fixpoint resolve_with (algos : list Comparator) (new_branch current_branch : Branch)
  : Exc bool :=
  match algos with
  | [] => Err (Exception "Conflict resolution failed.")
  | algo :: rest =>
      exc_bind (algo new_branch current_branch) (fun '(new_res, curr_res) =>
      if score_lt new_res curr_res then Ok false
      else if score_gt new_res curr_res then Ok true
      else resolve_with rest new_branch current_branch)
  end.

(** ** Collaborators, the world and the handler's monad *)

(** What a collaborator answers: a value, a failure, or nothing at all (a
    call or deferred that never completes). *)
Inductive Reply (A : Type) :=
| Done (a : A)
| Failed (e : PyExn)
| Hung.
Arguments Done {A} a.
Arguments Failed {A} e.
Arguments Hung {A}.

(** How a run of the handler ends.  [Blocked]: the task is suspended on a
    deferred that has not fired.  [OutOfFuel]: the recursion of
    [_handle_new_state] went deeper than the fuel given to the model. *)
Inductive Outcome (A : Type) :=
| Ret (a : A)
| Raise (e : PyExn)
| Blocked
| OutOfFuel.
Arguments Ret {A} a.
Arguments Raise {A} e.
Arguments Blocked {A}.
Arguments OutOfFuel {A}.

(** The run left the function: it returned or raised. *)
Definition exited {A} (o : Outcome A) : bool :=
  match o with
  | Ret _ | Raise _ => true
  | Blocked | OutOfFuel => false
  end.

(** The calls the handler issues to its collaborators. *)
Inductive Call :=
| CallGetLatestPdus (room : string)
| CallGetCurrentState (ctx ty key : string)
| CallGetUnresolvedStateTree (p : PDU)
| CallUpdateCurrentState (pdu_id origin context pdu_type state_key : string)
| CallGetPdu (destination : string) (pdu_origin pdu_id : option string) (outlier : bool)
| CallNewStateCallback (p : PDU)
| CallAdmissionCallback (e : Event.t)
| CallCallbackResult.

Definition is_update (c : Call) : bool :=
  match c with CallUpdateCurrentState _ _ _ _ _ => true | _ => false end.

Definition is_callback (c : Call) : bool :=
  match c with CallNewStateCallback _ | CallAdmissionCallback _ => true | _ => false end.

Definition is_fetch (c : Call) : bool :=
  match c with CallGetPdu _ _ _ _ => true | _ => false end.

Definition is_tree_query (c : Call) : bool :=
  match c with CallGetUnresolvedStateTree _ => true | _ => false end.

Definition count (f : Call -> bool) (l : list Call) : nat :=
  length (List.filter f l).

Section Handler.

(** The state of everything outside the handler: the store behind the
    persistence service, the network, the caller. *)
Context {Env : Type}.

Definition Service (A : Type) : Type := Env -> Reply A * Env.

Record PersistenceService := {
  get_latest_pdus_in_context : string -> Service (list (string * string * Z));
  get_current_state : string -> string -> string -> Service (option CurrentState.t);
  get_unresolved_state_tree : PDU -> Service (Branch * Branch);
  update_current_state : string -> string -> string -> string -> string -> Service unit
}.

Record ReplicationLayer := {
  get_pdu : string -> option string -> option string -> bool -> Service unit
}.

(** A callback answers with an object; [maybeDeferred] then calls that
    object.  [None] stands for an answer that is not callable. *)
Definition Callback (X : Type) : Type := X -> Service (option (Service unit)).

(** The attributes of [self].  [__init__] assigns the first two (and the
    dictionary of deferreds, which lives in the world); [handle_new_event]
    also reads [service], [persistence] and [server_name]. *)
Record StateHandler := {
  _persistence : PersistenceService;
  _replication : ReplicationLayer;
  service : option PersistenceService;
  persistence : option PersistenceService;
  server_name : option string
}.

Definition __init__ (persistence_service : PersistenceService)
           (replication_layer : ReplicationLayer) : StateHandler :=
  {| _persistence := persistence_service;
     _replication := replication_layer;
     service := None;
     persistence := None;
     server_name := None |}.

(** Deferreds are numbered in the order [defer.Deferred()] creates them. *)
Record World := mkWorld {
  env : Env;
  _update_deferreds : gmap KeyStateTuple nat;
  deferreds : nat;
  called : gset nat;
  log : list Call
}.

Definition initial_world (e : Env) : World := mkWorld e ∅ 0%nat ∅ [].

Definition M (A : Type) : Type := World -> Outcome A * World.

Definition ret {A} (a : A) : M A := fun w => (Ret a, w).

Definition raise {A} (e : PyExn) : M A := fun w => (Raise e, w).

Definition bind {A B} (m : M A) (k : A -> M B) : M B :=
  fun w =>
    match m w with
    | (Ret a, w') => k a w'
    | (Raise e, w') => (Raise e, w')
    | (Blocked, w') => (Blocked, w')
    | (OutOfFuel, w') => (OutOfFuel, w')
    end.

Definition lift {A} (x : Exc A) : M A :=
  match x with
  | Ok a => ret a
  | Err e => raise e
  end.

(** [try: body finally: fin].  A task that never leaves [body] never
    reaches [fin]. *)
Definition try_finally {A} (body : M A) (fin : M unit) : M A :=
  fun w =>
    match body w with
    | (Ret a, w') =>
        match fin w' with
        | (Ret _, w'') => (Ret a, w'')
        | (Raise e, w'') => (Raise e, w'')
        | (Blocked, w'') => (Blocked, w'')
        | (OutOfFuel, w'') => (OutOfFuel, w'')
        end
    | (Raise e, w') =>
        match fin w' with
        | (Ret _, w'') => (Raise e, w'')
        | (Raise e', w'') => (Raise e', w'')
        | (Blocked, w'') => (Blocked, w'')
        | (OutOfFuel, w'') => (OutOfFuel, w'')
        end
    | (Blocked, w') => (Blocked, w')
    | (OutOfFuel, w') => (OutOfFuel, w')
    end.

(** The world once call [c] has been issued and has left the environment [e]. *)
Definition logged (c : Call) (e : Env) (w : World) : World :=
  mkWorld e (_update_deferreds w) (deferreds w) (called w) (log w ++ [c]).

Definition of_reply {A} (r : Reply A) : Outcome A :=
  match r with
  | Done a => Ret a
  | Failed e => Raise e
  | Hung => Blocked
  end.

(** Issue a call to a collaborator: it is logged, then answered. *)
Definition call {A} (c : Call) (f : Service A) : M A :=
  fun w => let '(r, e') := f (env w) in (of_reply r, logged c e' w).

(** [o.attr] where the object or the attribute may be missing *)
Definition getattr {A} (attr : string) (o : option A) : M A :=
  match o with
  | Some a => ret a
  | None => raise (AttributeError attr)
  end.

(** [defer.Deferred()] *)
Definition new_Deferred : M nat :=
  fun w => (Ret (deferreds w),
            mkWorld (env w) (_update_deferreds w) (S (deferreds w)) (called w) (log w)).

(** [d.callback(None)] *)
Definition callback (d : nat) : M unit :=
  fun w =>
    if decide (d ∈ called w) then (Raise AlreadyCalledError, w)
    else (Ret tt, mkWorld (env w) (_update_deferreds w) (deferreds w)
                          ({[d]} ∪ called w) (log w)).

(** [yield d] *)
Definition await (d : nat) : M unit :=
  fun w => if decide (d ∈ called w) then (Ret tt, w) else (Blocked, w).

(** [yield defer.maybeDeferred(cb(x))]: the callback is called, then what
    it answered is called in turn. *)
Definition maybeDeferred {X} (c : Call) (cb : Callback X) (x : X) : M unit :=
  bind (call c (cb x)) (fun f =>
  match f with
  | Some g => call CallCallbackResult g
  | None => raise TypeError
  end).

Definition _lock (key : KeyStateTuple) (new_deferred : nat) : M unit :=
  fun w =>
    let old_deferred := _update_deferreds w !! key in
    let w' := mkWorld (env w) (<[key := new_deferred]> (_update_deferreds w))
                      (deferreds w) (called w) (log w) in
    match old_deferred with
    | Some d => await d w'
    | None => (Ret tt, w')
    end.

(** [max(a, b, key=lambda x: x.depth)] *)
Definition missing_prev_of (a b : PDU) : PDU := max_from depth a [b].

Definition fetch_call (missing_prev : PDU) : Call :=
  CallGetPdu (origin missing_prev) (prev_state_origin missing_prev)
             (prev_state_id missing_prev) true.

Fixpoint _handle_new_state (fuel : nat) (self : StateHandler) (new_pdu : PDU) : M bool :=
  match fuel with
  | O => fun w => (OutOfFuel, w)
  | S fuel' =>
      bind (call (CallGetUnresolvedStateTree new_pdu)
                 (get_unresolved_state_tree (_persistence self) new_pdu))
           (fun '(new_branch, current_branch) =>
      match current_branch with
      | [] => ret true
      | _ :: _ =>
          bind (lift (py_last new_branch)) (fun new_last =>
          bind (lift (py_last current_branch)) (fun current_last =>
          if decide (new_last = current_last) then
            if (length current_branch =? 1)%nat then ret true
            else lift (resolve_with conflict_res new_branch current_branch)
          else
            let missing_prev := missing_prev_of new_last current_last in
            bind (call (fetch_call missing_prev)
                       (get_pdu (_replication self)
                                (origin missing_prev)
                                (prev_state_origin missing_prev)
                                (prev_state_id missing_prev)
                                true))
                 (fun _ => _handle_new_state fuel' self new_pdu)))
      end)
  end.

Definition handle_new_state (fuel : nat) (self : StateHandler) (new_pdu : PDU)
           (new_state_callback : option (Callback PDU)) : M bool :=
  let key := mkKey (context new_pdu) (pdu_type new_pdu) (state_key new_pdu) in
  bind new_Deferred (fun new_deferred =>
  try_finally
    (bind (_lock key new_deferred) (fun _ =>
     bind (_handle_new_state fuel self new_pdu) (fun is_new =>
     bind (match is_new, new_state_callback with
           | true, Some cb => maybeDeferred (CallNewStateCallback new_pdu) cb new_pdu
           | _, _ => ret tt
           end) (fun _ =>
     ret is_new))))
    (callback new_deferred)).

Definition prev_event_ref (r : string * string * Z) : string :=
  let '(p_id, origin, _) := r in (p_id ++ "@" ++ origin)%string.

Definition next_depth (results : list (string * string * Z)) : Z :=
  match List.map (fun r => snd r) results with
  | [] => 0
  | v :: vs => max_from (fun x => x) v vs + 1
  end.

Definition handle_new_event (self : StateHandler) (event : Event.t)
           (new_state_callback : Callback Event.t) : M unit :=
  let key := mkKey (Event.room_id event) (Event.type event) (Event.state_key event) in
  bind new_Deferred (fun new_deferred =>
  try_finally
    (bind (_lock key new_deferred) (fun _ =>
     bind (getattr "service" (service self)) (fun svc =>
     bind (call (CallGetLatestPdus (Event.room_id event))
                (get_latest_pdus_in_context svc (Event.room_id event))) (fun results =>
     let event := Event.set_prev_events (List.map prev_event_ref results) event in
     let event := Event.set_depth (next_depth results) event in
     bind (call (CallGetCurrentState (key_context key) (key_type key) (key_state_key key))
                (get_current_state (_persistence self)
                                   (key_context key) (key_type key) (key_state_key key)))
          (fun current_state =>
     bind (getattr "pdu_id" current_state) (fun cs =>
     let event := Event.set_prev_state (CurrentState.pdu_id cs) (CurrentState.origin cs)
                                       event in
     bind (maybeDeferred (CallAdmissionCallback event) new_state_callback event) (fun _ =>
     bind (getattr "persistence" (persistence self)) (fun p =>
     bind (getattr "server_name" (server_name self)) (fun name =>
     call (CallUpdateCurrentState (Event.event_id event) name
                                  (key_context key) (key_type key) (key_state_key key))
          (update_current_state p (Event.event_id event) name
                                (key_context key) (key_type key) (key_state_key key))
     )))))))))
    (callback new_deferred)).

End Handler.

Arguments PersistenceService : clear implicits.
Arguments ReplicationLayer : clear implicits.
Arguments StateHandler : clear implicits.
Arguments World : clear implicits.
Arguments Callback : clear implicits.
Arguments M : clear implicits.
Arguments Service : clear implicits.

(** ** The notions the properties are stated with *)

Definition of_exc {A} (x : Exc A) : Outcome A :=
  match x with
  | Ok a => Ret a
  | Err e => Raise e
  end.

(** The maximum of the power levels of a branch without its last element,
    the way the specification words the first comparator. *)
Definition max_power (b : Branch) : option Z :=
  match removelast b with
  | [] => None
  | p :: ps => Some (fold_left Z.max (List.map power_level ps) (power_level p))
  end.

Definition conflict_failed : PyExn := Exception "Conflict resolution failed.".

(** What the loop computes from the six scores. *)
Definition verdict (pn pc ln lc : Z) (hn hc : string) : Exc bool :=
  if pn <? pc then Ok false
  else if pc <? pn then Ok true
  else if ln <? lc then Ok false
  else if lc <? ln then Ok true
  else if String.ltb hn hc then Ok false
  else if String.ltb hc hn then Ok true
  else Err conflict_failed.

Definition digest_of (b : Branch) : string := SHA1.hexdigest (branch_str b).

Definition len (b : Branch) : Z := Z.of_nat (length b).

(** The comparison of the first pair of scores that is unequal, taking the
    pairs in the order power level, chain length, digest; [Eq] when the
    three pairs are equal. *)
Definition first_unequal (pn pc ln lc : Z) (hn hc : string) : comparison :=
  match Z.compare pn pc with
  | Eq =>
      match Z.compare ln lc with
      | Eq => String.compare hn hc
      | c => c
      end
  | c => c
  end.

(** A comparator yields a strict inequality on two branches. *)
Definition strict (algo : Comparator) (nb cb : Branch) : bool :=
  match algo nb cb with
  | Ok (x, y) => score_lt x y || score_gt x y
  | Err _ => false
  end.

Definition strict_count (nb cb : Branch) : nat :=
  length (List.filter (fun algo => strict algo nb cb) conflict_res).

(** The PDU whose predecessor a round fetches, when the round finds a gap:
    the current branch is not empty and the two branches end in different
    PDUs. *)
Definition gap (t : Branch * Branch) : option PDU :=
  match snd t with
  | [] => None
  | _ :: _ =>
      match last (fst t), last (snd t) with
      | Some a, Some b => if decide (a = b) then None else Some (missing_prev_of a b)
      | _, _ => None
      end
  end.

Definition resolver_call (c : Call) : bool := is_tree_query c || is_fetch c.

Definition callback_call (c : Call) : bool :=
  is_callback c || match c with CallCallbackResult => true | _ => false end.

Definition any_call (c : Call) : bool := true.

Definition lookup_call (c : Call) : bool :=
  match c with
  | CallGetLatestPdus _ | CallGetCurrentState _ _ _ => true
  | _ => false
  end.

Definition key_of (p : PDU) : KeyStateTuple :=
  mkKey (context p) (pdu_type p) (state_key p).

Definition event_key (event : Event.t) : KeyStateTuple :=
  mkKey (Event.room_id event) (Event.type event) (Event.state_key event).

Section Notions.

Context {Env : Type}.
Implicit Types (self : StateHandler Env) (w : World Env) (new_pdu : PDU).
Implicit Types (nb cb : Branch) (e : Env) (l : list Call).

(** [issues Q m]: a run of [m] leaves the lock table, the deferreds and the
    calls already logged as they are, and every call it adds satisfies [Q]. *)
Definition issues {A} (Q : Call -> bool) (m : M Env A) : Prop :=
  forall w o w', m w = (o, w') ->
    _update_deferreds w' = _update_deferreds w /\
    deferreds w' = deferreds w /\
    called w' = called w /\
    exists l, log w' = log w ++ l /\ forallb Q l = true.

(** The query [self._persistence.get_unresolved_state_tree(new_pdu)]. *)
Definition tree_query self new_pdu : Service Env (Branch * Branch) :=
  get_unresolved_state_tree (_persistence self) new_pdu.

(** The fetch [self._replication.get_pdu(...)] for the predecessor of [m]. *)
Definition fetch self (m : PDU) : Service Env unit :=
  get_pdu (_replication self) (origin m) (prev_state_origin m) (prev_state_id m) true.

Definition queried new_pdu e w : World Env :=
  logged (CallGetUnresolvedStateTree new_pdu) e w.

(** Nobody holds the key: no deferred is registered, or the registered one
    has been called. *)
Definition lock_free (key : KeyStateTuple) w : Prop :=
  match _update_deferreds w !! key with
  | Some d => d ∈ called w
  | None => True
  end.

(** Only deferreds that exist have been called. *)
Definition fresh w : Prop := deferreds w ∉ called w.

(** The world once the caller has created its deferred and registered it. *)
Definition locked (key : KeyStateTuple) w : World Env :=
  mkWorld (env w) (<[key := deferreds w]> (_update_deferreds w))
          (S (deferreds w)) (called w) (log w).

(** The world once deferred [d] has been called. *)
Definition released (d : nat) w : World Env :=
  mkWorld (env w) (_update_deferreds w) (deferreds w) ({[d]} ∪ called w) (log w).

(** The world once [defer.Deferred()] has created the caller's deferred. *)
Definition allocated w : World Env :=
  mkWorld (env w) (_update_deferreds w) (S (deferreds w)) (called w) (log w).

(** What [handle_new_state] answers once the resolver has said [True] in
    world [w2]: the callback, if one was given, still has to complete. *)
Definition after_callback (cbk : option (Callback Env PDU)) new_pdu w2
  : Outcome bool :=
  match cbk with
  | None => Ret true
  | Some cb =>
      match fst (maybeDeferred (CallNewStateCallback new_pdu) cb new_pdu w2) with
      | Ret _ => Ret true
      | Raise e => Raise e
      | Blocked => Blocked
      | OutOfFuel => OutOfFuel
      end
  end.

(** A round of the resolver after the fetch for the predecessor of [m]
    has been issued from world [w1]. *)
Definition after_fetch fuel self new_pdu (m : PDU) w1 : Outcome bool * World Env :=
  match get_pdu (_replication self)
                (origin m) (prev_state_origin m) (prev_state_id m) true (env w1) with
  | (Done _, e2) =>
      _handle_new_state fuel self new_pdu
        (logged (CallGetPdu (origin m) (prev_state_origin m) (prev_state_id m) true)
                e2 w1)
  | (Failed err, e2) =>
      (Raise err,
       logged (CallGetPdu (origin m) (prev_state_origin m) (prev_state_id m) true) e2 w1)
  | (Hung, e2) =>
      (Blocked,
       logged (CallGetPdu (origin m) (prev_state_origin m) (prev_state_id m) true) e2 w1)
  end.

(** What [handle_new_state] does once the lock is taken. *)
Definition resolve_and_notify fuel self new_pdu
           (cbk : option (Callback Env PDU)) : M Env bool :=
  bind (_handle_new_state fuel self new_pdu) (fun is_new =>
  bind (match is_new, cbk with
        | true, Some cb => maybeDeferred (CallNewStateCallback new_pdu) cb new_pdu
        | _, _ => ret tt
        end) (fun _ =>
  ret is_new)).

(** What [handle_new_event] does once the lock is taken. *)
Definition fill_and_admit self (event : Event.t) (cb : Callback Env Event.t)
  : M Env unit :=
  let key := event_key event in
  bind (getattr "service" (service self)) (fun svc =>
  bind (call (CallGetLatestPdus (Event.room_id event))
             (get_latest_pdus_in_context svc (Event.room_id event))) (fun results =>
  let event := Event.set_prev_events (List.map prev_event_ref results) event in
  let event := Event.set_depth (next_depth results) event in
  bind (call (CallGetCurrentState (key_context key) (key_type key) (key_state_key key))
             (get_current_state (_persistence self)
                                (key_context key) (key_type key) (key_state_key key)))
       (fun current_state =>
  bind (getattr "pdu_id" current_state) (fun cs =>
  let event := Event.set_prev_state (CurrentState.pdu_id cs) (CurrentState.origin cs)
                                    event in
  bind (maybeDeferred (CallAdmissionCallback event) cb event) (fun _ =>
  bind (getattr "persistence" (persistence self)) (fun p =>
  bind (getattr "server_name" (server_name self)) (fun name =>
  call (CallUpdateCurrentState (Event.event_id event) name
                               (key_context key) (key_type key) (key_state_key key))
       (update_current_state p (Event.event_id event) name
                             (key_context key) (key_type key) (key_state_key key))
  ))))))).

(** The verdict the resolver reaches inside [handle_new_state], once the
    lock is taken. *)
Definition resolver_verdict fuel self new_pdu w : Outcome bool :=
  fst (bind (_lock (key_of new_pdu) (deferreds w))
            (fun _ => _handle_new_state fuel self new_pdu) (allocated w)).

(** The slot of [event] has no current state when a call started in
    environment [e] asks for it: in the environment the query for the
    latest PDUs leaves behind, [get_current_state] answers [None]. *)
Definition no_current_state self event (e : Env) : Prop :=
  forall svc results e1,
    service self = Some svc ->
    get_latest_pdus_in_context svc (Event.room_id event) e = (Done results, e1) ->
    fst (get_current_state (_persistence self)
           (Event.room_id event) (Event.type event) (Event.state_key event) e1)
    = Done None.

Section Gaps.

Variables (self : StateHandler Env) (new_pdu : PDU).

(** [gap_chain n e]: from environment [e] on, [n] rounds in a row find a
    gap and see their fetch complete, and the round after them finds no
    gap. *)
Fixpoint gap_chain (n : nat) (e : Env) : bool :=
  match tree_query self new_pdu e with
  | (Done t, e1) =>
      match gap t, n with
      | None, O => true
      | Some m, S n' =>
          match fetch self m e1 with
          | (Done _, e2) => gap_chain n' e2
          | (_, _) => false
          end
      | _, _ => false
      end
  | (_, _) => (n =? 0)%nat
  end.

(** The resolution started in [w] needs no more than [N] recursive calls:
    every fuel above [N] gives the same run, that run does not stop for
    lack of fuel, and it issues exactly [N] fetches. *)
Definition resolves_within (N : nat) w : Prop :=
  forall fuel, (N < fuel)%nat ->
    _handle_new_state fuel self new_pdu w = _handle_new_state (S N) self new_pdu w /\
    fst (_handle_new_state fuel self new_pdu w) <> OutOfFuel /\
    exists l, log (snd (_handle_new_state fuel self new_pdu w)) = log w ++ l /\
              count is_fetch l = N.

(** The two branches persistence answers with never hold more than [E]
    PDUs together. *)
Definition bounded_by (E : nat) : Prop :=
  forall e nb cb e1,
    tree_query self new_pdu e = (Done (nb, cb), e1) ->
    (length nb + length cb <= E)%nat.

(** After a fetch that completed, the next answer of persistence has grown
    at least one branch and shrunk none. *)
Definition fetch_grows_branch : Prop :=
  forall e nb cb e1 m r e2 nb' cb' e3,
    tree_query self new_pdu e = (Done (nb, cb), e1) ->
    gap (nb, cb) = Some m ->
    fetch self m e1 = (Done r, e2) ->
    tree_query self new_pdu e2 = (Done (nb', cb'), e3) ->
    (length nb <= length nb')%nat /\ (length cb <= length cb')%nat /\
    ((length nb < length nb')%nat \/ (length cb < length cb')%nat).

(** After a fetch that completed, the next answer of persistence has grown
    at least one branch; the other branch may have shrunk. *)
Definition fetch_grows_some_branch : Prop :=
  forall e nb cb e1 m r e2 nb' cb' e3,
    tree_query self new_pdu e = (Done (nb, cb), e1) ->
    gap (nb, cb) = Some m ->
    fetch self m e1 = (Done r, e2) ->
    tree_query self new_pdu e2 = (Done (nb', cb'), e3) ->
    (length nb < length nb')%nat \/ (length cb < length cb')%nat.

End Gaps.

End Notions.

(** ** A scripted room, for running the handler on concrete inputs *)

Module Scenario.

(** The environment counts the PDUs the replication layer has delivered;
    the persistence service answers the tree query from a script indexed
    by that count. *)
Definition persistence_of (tree : nat -> Reply (Branch * Branch))
           (current : option CurrentState.t) : PersistenceService nat :=
  {| get_latest_pdus_in_context := fun _ e => (Done [("c", "hs0", 1)], e);
     get_current_state := fun _ _ _ e => (Done current, e);
     get_unresolved_state_tree := fun _ e => (tree e, e);
     update_current_state := fun _ _ _ _ _ e => (Done tt, e) |}.

Definition replication : ReplicationLayer nat :=
  {| get_pdu := fun _ _ _ _ e => (Done tt, S e) |}.

Definition handler_of (tree : nat -> Reply (Branch * Branch)) : StateHandler nat :=
  __init__ (persistence_of tree None) replication.

(** a handler on which the attributes [handle_new_event] reads have been
    set as well *)
Definition wired (current : option CurrentState.t) : StateHandler nat :=
  {| _persistence := persistence_of (fun _ => Done ([], [])) current;
     _replication := replication;
     service := Some (persistence_of (fun _ => Done ([], [])) current);
     persistence := Some (persistence_of (fun _ => Done ([], [])) current);
     server_name := Some "hs1"%string |}.

(** a locally authored event, not yet filled in *)
Definition draft : Event.t :=
  Event.mk "room" "m.room.topic" "" "e1" [] 0 None None.

Definition topic (id org : string) (d p : Z) (prev : option (string * string)) : PDU :=
  mkPDU id org "room" "m.room.topic" "" d p (fst <$> prev) (snd <$> prev).

(** the common ancestor, the current state and the new PDU *)
Definition C : PDU := topic "c" "hs0" 3 0 None.

Definition A1 : PDU := topic "a1" "hs1" 4 10 (Some ("c", "hs0")).

Definition A : PDU := topic "a" "hs1" 5 10 (Some ("a1", "hs1")).

Definition B1 : PDU := topic "b1" "hs2" 4 20 (Some ("c", "hs0")).

Definition B : PDU := topic "b" "hs2" 5 10 (Some ("b1", "hs2")).

(** two PDUs whose identifier and origin concatenate to the same text *)
Definition X : PDU := topic "a" "bc" 4 10 (Some ("c", "hs0")).

Definition Y : PDU := topic "ab" "c" 4 10 (Some ("c", "hs0")).

(** Three gaps in a row: [A]'s predecessor, then [B1]'s, then [A1]'s are
    missing; each fetch lets persistence extend one branch. *)
Definition gap_script (e : nat) : Reply (Branch * Branch) :=
  match e with
  | 0%nat => Done ([B; B1], [A])
  | 1%nat => Done ([B; B1], [A; A1])
  | 2%nat => Done ([B; B1; C], [A; A1])
  | _ => Done ([B; B1; C], [A; A1; C])
  end.

(** Persistence that hands back one PDU of one branch for each PDU it
    gains on the other: every fetch grows a branch, and the branches never
    meet. *)
Definition flip_script (e : nat) : Reply (Branch * Branch) :=
  if Nat.even e then Done ([B; B1], [A]) else Done ([B], [A; A1]).

(** A handler with every attribute set, on a store whose slot is empty in
    environment 0 and filled in every other environment. *)
Definition late_store : StateHandler nat :=
  let store :=
    {| get_latest_pdus_in_context := fun _ e => (Done [("c", "hs0", 1)], e);
       get_current_state := fun _ _ _ e =>
         (Done (match e with
                | O => None
                | S _ => Some (CurrentState.mk "a" "hs1")
                end), e);
       get_unresolved_state_tree := fun _ e => (Done ([], []), e);
       update_current_state := fun _ _ _ _ _ e => (Done tt, S e) |} in
  {| _persistence := store;
     _replication := replication;
     service := Some store;
     persistence := Some store;
     server_name := Some "hs1"%string |}.

(** A single gap, closed by the first fetch. *)
Definition one_gap (e : nat) : Reply (Branch * Branch) :=
  match e with
  | 0%nat => Done ([B; B1], [A])
  | _ => Done ([B; B1; C], [A; A1; C])
  end.

(** a callback that answers with a callable that completes *)
Definition accept {T} : Callback nat T := fun _ e => (Done (Some (fun e' => (Done tt, e'))), e).

(** a callback that answers [None] *)
Definition plain {T} : Callback nat T := fun _ e => (Done None, e).

(** a callback that raises *)
Definition reject {T} : Callback nat T := fun _ e => (Failed (Failure "rejected"), e).

End Scenario.

(** ** Notions for the properties of the remaining behaviour *)

(** The calls of successive resolver rounds that each found a gap: a tree
    query for the PDU being resolved, then the fetch for the PDU whose
    predecessor is missing. *)
Definition rounds_log (new_pdu : PDU) (ms : list PDU) : list Call :=
  List.concat
    (List.map (fun m => [CallGetUnresolvedStateTree new_pdu; fetch_call m]) ms).

(** The event as [handle_new_event] hands it to the admission callback:
    [prev_events], [depth], [prev_state_id] and [prev_state_origin] set from
    the latest PDUs [results] and the current state [cs]. *)
Definition filled (event : Event.t) (results : list (string * string * Z))
           (cs : CurrentState.t) : Event.t :=
  Event.set_prev_state (CurrentState.pdu_id cs) (CurrentState.origin cs)
    (Event.set_depth (next_depth results)
       (Event.set_prev_events (List.map prev_event_ref results) event)).

(** The five calls of an admission that succeeds, in the order of the code. *)
Definition admission_log (event : Event.t) (results : list (string * string * Z))
           (cs : CurrentState.t) (name : string) : list Call :=
  [CallGetLatestPdus (Event.room_id event);
   CallGetCurrentState (Event.room_id event) (Event.type event) (Event.state_key event);
   CallAdmissionCallback (filled event results cs);
   CallCallbackResult;
   CallUpdateCurrentState (Event.event_id event) name
     (Event.room_id event) (Event.type event) (Event.state_key event)].

Section FurtherNotions.

Context {Env : Type}.
Implicit Types (self : StateHandler Env) (w : World Env) (event : Event.t).

(** Only deferreds that have been created have been called. *)
Definition numbered w : Prop :=
  forall d, d ∈ called w -> (d < deferreds w)%nat.

(** No key is held. *)
Definition idle w : Prop := forall key, lock_free key w.



(** The admission went all the way to [update_current_state]: the services
    answered [results] and [cs], the callback answered something callable
    and that completed. *)
Definition admitted self event (cb : Callback Env Event.t) w
           (l : list Call) : Prop :=
  exists svc name results e1 cs e2 g e3,
    service self = Some svc /\
    server_name self = Some name /\
    is_Some (persistence self) /\
    get_latest_pdus_in_context svc (Event.room_id event) (env w) = (Done results, e1) /\
    get_current_state (_persistence self) (Event.room_id event) (Event.type event)
                      (Event.state_key event) e1 = (Done (Some cs), e2) /\
    cb (filled event results cs) e2 = (Done (Some g), e3) /\
    fst (g e3) = Done tt /\
    l = admission_log event results cs name.

End FurtherNotions.

(** A world in which the key of [Scenario.B] is held: deferred 0 is
    registered under it and has not been called. *)
Definition held_world : World nat :=
  mkWorld 0%nat (<[key_of Scenario.B := 0%nat]> ∅) 1%nat ∅ [].

(** A third branch for the scripted room, of lower power than the other two. *)
Definition low_power_branch : Branch :=
  [Scenario.topic "z" "hs3" 5 5 (Some ("z1", "hs3"));
   Scenario.topic "z1" "hs3" 4 5 (Some ("c", "hs0"));
   Scenario.C].

(** * Part II: the properties *)

(** ** SHA-1 test vectors *)

Example sha1_empty :
  SHA1.hexdigest "" = "da39a3ee5e6b4b0d3255bfef95601890afd80709"%string.
Proof. vm_compute. reflexivity. Qed.

Example sha1_abc :
  SHA1.hexdigest "abc" = "a9993e364706816aba3e25717850c26c9cd0d89d"%string.
Proof. vm_compute. reflexivity. Qed.

Example sha1_two_blocks :
  SHA1.hexdigest "abcdbcdecdefdefgefghfghighijhijkijkljklmklmnlmnomnopnopq"
  = "84983e441c3bd26ebaae4aa1f95129e5e54670f1"%string.
Proof. vm_compute. reflexivity. Qed.

(** ** Facts about the Python primitives *)

Lemma string_ltb_irrefl (s : string) : String.ltb s s = false.
Proof.
  unfold String.ltb.
  pose proof (String.compare_antisym s s) as H.
  destruct (String.compare s s); simpl in H; congruence.
Qed.

Lemma string_ltb_asym (s1 s2 : string) :
  String.ltb s1 s2 = true -> String.ltb s2 s1 = false.
Proof.
  unfold String.ltb. rewrite (String.compare_antisym s2 s1).
  destruct (String.compare s1 s2); simpl; congruence.
Qed.

Lemma string_ltb_total (s1 s2 : string) :
  String.ltb s1 s2 = false -> String.ltb s2 s1 = false -> s1 = s2.
Proof.
  unfold String.ltb. rewrite (String.compare_antisym s2 s1).
  destruct (String.compare s1 s2) eqn:E; simpl; try congruence.
  intros _ _. now apply String.compare_eq_iff.
Qed.

Lemma string_compare_refl (s : string) : String.compare s s = Eq.
Proof.
  pose proof (String.compare_antisym s s) as H.
  destruct (String.compare s s); simpl in H; congruence.
Qed.

Lemma max_from_key {A} (key : A -> Z) (l : list A) (best : A) :
  key (max_from key best l) = fold_left Z.max (List.map key l) (key best).
Proof.
  revert best. induction l as [|x l IH]; intros best; simpl; [reflexivity|].
  rewrite IH. f_equal.
  destruct (Z.ltb_spec (key best) (key x)); lia.
Qed.

Lemma py_max_power (b : Branch) :
  py_max power_level (removelast b) =
  match removelast b with
  | [] => Err ValueError
  | p :: ps => Ok (max_from power_level p ps)
  end.
Proof. reflexivity. Qed.

Lemma removelast_nonempty {A} (l : list A) :
  (1 < length l)%nat -> exists x xs, removelast l = x :: xs.
Proof.
  destruct l as [|a [|b l]]; simpl; try lia.
  intros _. eauto.
Qed.

Lemma max_power_some (b : Branch) :
  (1 < length b)%nat -> exists p, max_power b = Some p.
Proof.
  intros H. destruct (removelast_nonempty b H) as (x & xs & E).
  unfold max_power. rewrite E. eauto.
Qed.

Lemma max_power_none (b : Branch) :
  (length b <= 1)%nat -> max_power b = None.
Proof.
  destruct b as [|a [|c b]]; simpl; try lia; reflexivity.
Qed.

Lemma count_app (f : Call -> bool) (l1 l2 : list Call) :
  count f (l1 ++ l2) = (count f l1 + count f l2)%nat.
Proof. unfold count. now rewrite List.filter_app, length_app. Qed.

Lemma count_none (f Q : Call -> bool) (l : list Call) :
  (forall c, Q c = true -> f c = false) ->
  forallb Q l = true -> count f l = 0%nat.
Proof.
  intros HQ. unfold count. induction l as [|c l IH]; [reflexivity|].
  cbn [forallb List.filter]. intros H. apply andb_true_iff in H as [Hc Hl].
  rewrite (HQ c Hc). now apply IH.
Qed.

(** ** The tiebreak, comparator by comparator *)

Lemma power_res_spec (nb cb : Branch) :
  _do_power_level_conflict_res nb cb =
  match max_power nb, max_power cb with
  | Some pn, Some pc => Ok (SInt pn, SInt pc)
  | _, _ => Err ValueError
  end.
Proof.
  unfold _do_power_level_conflict_res, max_power, py_max.
  destruct (removelast nb) as [|x xs]; simpl; [reflexivity|].
  destruct (removelast cb) as [|y ys]; simpl; [reflexivity|].
  now rewrite !max_from_key.
Qed.

Lemma resolve_with_conflict_res (nb cb : Branch) :
  resolve_with conflict_res nb cb =
  match max_power nb, max_power cb with
  | Some pn, Some pc => verdict pn pc (len nb) (len cb) (digest_of nb) (digest_of cb)
  | _, _ => Err ValueError
  end.
Proof.
  unfold conflict_res, resolve_with. rewrite power_res_spec.
  destruct (max_power nb) as [pn|]; [|reflexivity].
  destruct (max_power cb) as [pc|]; [|reflexivity].
  unfold verdict, score_gt, exc_bind, _do_chain_length_conflict_res,
    _do_hash_conflict_res, score_lt, len, digest_of, conflict_failed.
  destruct (pn <? pc); [reflexivity|].
  destruct (pc <? pn); [reflexivity|].
  destruct (Z.of_nat (length nb) <? Z.of_nat (length cb)); [reflexivity|].
  destruct (Z.of_nat (length cb) <? Z.of_nat (length nb)); [reflexivity|].
  destruct (String.ltb _ _); [reflexivity|].
  destruct (String.ltb _ _); reflexivity.
Qed.

Lemma verdict_first_unequal (pn pc ln lc : Z) (hn hc : string) :
  verdict pn pc ln lc hn hc =
  match first_unequal pn pc ln lc hn hc with
  | Lt => Ok false
  | Gt => Ok true
  | Eq => Err conflict_failed
  end.
Proof.
  unfold verdict, first_unequal.
  destruct (Z.compare_spec pn pc) as [E|L|G].
  - subst. rewrite Z.ltb_irrefl.
    destruct (Z.compare_spec ln lc) as [E|L|G].
    + subst. rewrite Z.ltb_irrefl.
      unfold String.ltb. rewrite (String.compare_antisym hc hn).
      destruct (String.compare hn hc); reflexivity.
    + apply Z.ltb_lt in L. now rewrite L.
    + assert ((ln <? lc) = false) as -> by (apply Z.ltb_ge; lia).
      apply Z.ltb_lt in G. now rewrite G.
  - apply Z.ltb_lt in L. now rewrite L.
  - assert ((pn <? pc) = false) as -> by (apply Z.ltb_ge; lia).
    apply Z.ltb_lt in G. now rewrite G.
Qed.

Lemma first_unequal_eq (pn pc ln lc : Z) (hn hc : string) :
  first_unequal pn pc ln lc hn hc = Eq <-> pn = pc /\ ln = lc /\ hn = hc.
Proof.
  unfold first_unequal. split.
  - destruct (Z.compare_spec pn pc) as [Ep| |]; try discriminate.
    destruct (Z.compare_spec ln lc) as [El| |]; try discriminate.
    intros Eh. apply String.compare_eq_iff in Eh. auto.
  - intros (-> & -> & ->). rewrite !Z.compare_refl. apply string_compare_refl.
Qed.

Lemma gap_some (nb cb : Branch) (m : PDU) :
  gap (nb, cb) = Some m ->
  exists a b, last nb = Some a /\ last cb = Some b /\ a <> b /\ m = missing_prev_of a b.
Proof.
  unfold gap. cbn [fst snd]. destruct cb as [|c cb]; [discriminate|].
  destruct (last nb) as [a|]; [|discriminate].
  destruct (last (c :: cb)) as [b|]; [|discriminate].
  destruct (decide (a = b)); [discriminate|].
  intros [= <-]. eauto 6.
Qed.

Lemma gap_nonempty (nb cb : Branch) (m : PDU) :
  gap (nb, cb) = Some m -> (0 < length nb + length cb)%nat.
Proof.
  unfold gap. cbn [fst snd]. destruct cb; [discriminate|]. simpl. lia.
Qed.

(** ** What a run may touch *)

Section Frames.

Context {Env : Type}.
Implicit Types (self : StateHandler Env) (w : World Env) (l : list Call).

Lemma issues_ret {A} Q (a : A) : issues (Env := Env) Q (ret a).
Proof.
  intros w o w' [= <- <-]. repeat split. exists []. now rewrite app_nil_r.
Qed.

Lemma issues_raise {A} Q (e : PyExn) : issues (Env := Env) Q (raise (A := A) e).
Proof.
  intros w o w' [= <- <-]. repeat split. exists []. now rewrite app_nil_r.
Qed.

Lemma issues_lift {A} Q (x : Exc A) : issues (Env := Env) Q (lift x).
Proof. destruct x; [apply issues_ret | apply issues_raise]. Qed.

Lemma issues_getattr {A} Q attr (o : option A) : issues (Env := Env) Q (getattr attr o).
Proof. destruct o; [apply issues_ret | apply issues_raise]. Qed.

Lemma issues_call {A} (Q : Call -> bool) c (f : Service Env A) :
  Q c = true -> issues Q (call c f).
Proof.
  intros HQ w o w'. unfold call. destruct (f (env w)) as [r e'].
  intros [= <- <-]. repeat split. exists [c]. simpl. now rewrite HQ.
Qed.

Lemma issues_bind {A B} Q (m : M Env A) (k : A -> M Env B) :
  issues Q m -> (forall a, issues Q (k a)) -> issues Q (bind m k).
Proof.
  intros Hm Hk w o w'. unfold bind.
  destruct (m w) as [r w1] eqn:E.
  destruct (Hm _ _ _ E) as (H1 & H2 & H3 & l1 & H4 & H5).
  destruct r as [a|e| |].
  - intros E2. destruct (Hk a _ _ _ E2) as (K1 & K2 & K3 & l2 & K4 & K5).
    repeat split; try congruence.
    exists (l1 ++ l2). split.
    + rewrite K4, H4. now rewrite app_assoc.
    + rewrite forallb_app, H5, K5. reflexivity.
  - intros [= <- <-]. repeat split; eauto.
  - intros [= <- <-]. repeat split; eauto.
  - intros [= <- <-]. repeat split; eauto.
Qed.

Lemma issues_weaken {A} (Q Q' : Call -> bool) (m : M Env A) :
  (forall c, Q c = true -> Q' c = true) -> issues Q m -> issues Q' m.
Proof.
  intros HQ Hm w o w' E.
  destruct (Hm _ _ _ E) as (H1 & H2 & H3 & l & H4 & H5).
  repeat split; try assumption. exists l. split; [assumption|].
  rewrite forallb_forall in *. auto.
Qed.

Lemma issues_any {A} (Q : Call -> bool) (m : M Env A) :
  issues Q m -> issues any_call m.
Proof. apply issues_weaken. reflexivity. Qed.

Lemma issues__handle_new_state fuel self new_pdu :
  issues resolver_call (_handle_new_state fuel self new_pdu).
Proof.
  induction fuel as [|fuel IH]; simpl.
  - intros w o w' [= <- <-]. repeat split. exists []. now rewrite app_nil_r.
  - apply issues_bind; [now apply issues_call|].
    intros [nb [|c cb]]; [apply issues_ret|].
    apply issues_bind; [apply issues_lift|]. intros a.
    apply issues_bind; [apply issues_lift|]. intros b.
    destruct (decide (a = b)).
    + destruct (length (c :: cb) =? 1)%nat; [apply issues_ret | apply issues_lift].
    + apply issues_bind; [now apply issues_call|]. intros _. exact IH.
Qed.

Lemma issues_maybeDeferred {X} c (cb : Callback Env X) (x : X) :
  is_callback c = true -> issues callback_call (maybeDeferred c cb x).
Proof.
  intros Hc. apply issues_bind.
  - apply issues_call. unfold callback_call. now rewrite Hc.
  - intros [g|]; [now apply issues_call | apply issues_raise].
Qed.

Lemma issues_notify (is_new : bool) (cbk : option (Callback Env PDU)) new_pdu :
  issues callback_call
    (match is_new, cbk with
     | true, Some cb => maybeDeferred (CallNewStateCallback new_pdu) cb new_pdu
     | _, _ => ret tt
     end).
Proof.
  destruct is_new, cbk as [cb|]; try apply issues_ret.
  now apply issues_maybeDeferred.
Qed.

Lemma issues_resolve_and_notify fuel self new_pdu cbk :
  issues (fun c => resolver_call c || callback_call c)
         (resolve_and_notify fuel self new_pdu cbk).
Proof.
  apply issues_bind.
  - apply (issues_weaken resolver_call); [|apply issues__handle_new_state].
    intros c ->. reflexivity.
  - intros is_new. apply issues_bind; [|intros _; apply issues_ret].
    apply (issues_weaken callback_call); [|apply issues_notify].
    intros c ->. apply orb_true_r.
Qed.

Lemma issues_fill_and_admit self event cb :
  issues any_call (fill_and_admit self event cb).
Proof.
  apply issues_bind; [apply issues_getattr|]. intros svc.
  apply issues_bind; [now apply issues_call|]. intros results.
  apply issues_bind; [now apply issues_call|]. intros current_state.
  apply issues_bind; [apply issues_getattr|]. intros cs.
  apply issues_bind.
  { apply (issues_any callback_call). now apply issues_maybeDeferred. }
  intros _.
  apply issues_bind; [apply issues_getattr|]. intros p.
  apply issues_bind; [apply issues_getattr|]. intros name.
  now apply issues_call.
Qed.

End Frames.

(** ** One round of the resolver, case by case *)

Section Resolver.

Context {Env : Type}.
Implicit Types (self : StateHandler Env) (w : World Env) (new_pdu : PDU).
Implicit Types (nb cb : Branch) (e : Env).

Lemma resolver_no_current fuel self new_pdu w nb e1 :
  tree_query self new_pdu (env w) = (Done (nb, []), e1) ->
  _handle_new_state (S fuel) self new_pdu w = (Ret true, queried new_pdu e1 w).
Proof.
  intros H. simpl. unfold bind, call. unfold tree_query in H. now rewrite H.
Qed.

Lemma resolver_converged fuel self new_pdu w nb cb e1 a :
  tree_query self new_pdu (env w) = (Done (nb, cb), e1) ->
  last nb = Some a ->
  last cb = Some a ->
  _handle_new_state (S fuel) self new_pdu w =
  (if (length cb =? 1)%nat then Ret true
   else of_exc (resolve_with conflict_res nb cb),
   queried new_pdu e1 w).
Proof.
  intros H Hn Hc.
  destruct cb as [|c cb]; [discriminate|].
  cbn [_handle_new_state].
  unfold bind at 1. unfold call.
  unfold tree_query in H. rewrite H. cbn [of_reply].
  unfold py_last. rewrite Hn, Hc. cbn [lift]. unfold bind, ret.
  destruct (decide (a = a)) as [_|N]; [|congruence].
  destruct (length (c :: cb) =? 1)%nat; [reflexivity|].
  destruct (resolve_with conflict_res nb (c :: cb)); reflexivity.
Qed.

Lemma resolver_diverged fuel self new_pdu w nb cb e1 a b :
  tree_query self new_pdu (env w) = (Done (nb, cb), e1) ->
  last nb = Some a ->
  last cb = Some b ->
  a <> b ->
  _handle_new_state (S fuel) self new_pdu w =
  bind (call (fetch_call (missing_prev_of a b)) (fetch self (missing_prev_of a b)))
       (fun _ => _handle_new_state fuel self new_pdu)
       (queried new_pdu e1 w).
Proof.
  intros H Hn Hc Hab.
  destruct cb as [|c cb]; [discriminate|].
  cbn [_handle_new_state].
  unfold bind at 1. unfold call at 1.
  unfold tree_query in H. rewrite H. cbn [of_reply].
  unfold py_last. rewrite Hn, Hc. cbn [lift].
  unfold bind at 1, ret. unfold bind at 1.
  destruct (decide (a = b)) as [E|_]; [congruence|].
  reflexivity.
Qed.

Lemma fetch_then_rerun fuel self new_pdu (m : PDU) w1 :
  bind (call (fetch_call m) (fetch self m))
       (fun _ => _handle_new_state fuel self new_pdu) w1
  = after_fetch fuel self new_pdu m w1.
Proof.
  unfold bind, call, fetch, after_fetch, fetch_call.
  destruct (get_pdu _ _ _ _ _ _) as [[r|err|] e2]; reflexivity.
Qed.

Lemma resolver_log_head fuel self new_pdu w :
  exists l, log (snd (_handle_new_state (S fuel) self new_pdu w))
            = log w ++ CallGetUnresolvedStateTree new_pdu :: l.
Proof.
  destruct (_handle_new_state (S fuel) self new_pdu w) as [o w'] eqn:E.
  cbn [_handle_new_state] in E. unfold bind at 1 in E. unfold call at 1 in E.
  destruct (get_unresolved_state_tree _ _ _) as [r e1].
  destruct r as [[nb cb]|err|]; cbn [of_reply] in E.
  2,3: injection E as <- <-; exists []; reflexivity.
  assert (K : issues resolver_call
    (match cb with
     | [] => ret true
     | _ :: _ =>
         bind (lift (py_last nb)) (fun new_last =>
         bind (lift (py_last cb)) (fun current_last =>
         if decide (new_last = current_last) then
           if (length cb =? 1)%nat then ret true
           else lift (resolve_with conflict_res nb cb)
         else
           let missing_prev := missing_prev_of new_last current_last in
           bind (call (fetch_call missing_prev)
                      (get_pdu (_replication self)
                               (origin missing_prev)
                               (prev_state_origin missing_prev)
                               (prev_state_id missing_prev)
                               true))
                (fun _ => _handle_new_state fuel self new_pdu)))
     end)).
  { destruct cb as [|c cb]; [apply issues_ret|].
    apply issues_bind; [apply issues_lift|]. intros a.
    apply issues_bind; [apply issues_lift|]. intros b.
    destruct (decide (a = b)).
    - destruct (length (c :: cb) =? 1)%nat; [apply issues_ret | apply issues_lift].
    - apply issues_bind; [now apply issues_call|]. intros _.
      apply issues__handle_new_state. }
  destruct (K _ _ _ E) as (_ & _ & _ & l & Hl & _).
  exists l. cbn [snd]. rewrite Hl. unfold logged. cbn [log].
  now rewrite <- app_assoc.
Qed.

Lemma resolver_tiebreak fuel self new_pdu w nb cb e1 a :
  tree_query self new_pdu (env w) = (Done (nb, cb), e1) ->
  last nb = Some a ->
  last cb = Some a ->
  (1 < length cb)%nat ->
  fst (_handle_new_state (S fuel) self new_pdu w) =
  match max_power nb, max_power cb with
  | Some pn, Some pc =>
      match first_unequal pn pc (len nb) (len cb) (digest_of nb) (digest_of cb) with
      | Lt => Ret false
      | Gt => Ret true
      | Eq => Raise conflict_failed
      end
  | _, _ => Raise ValueError
  end.
Proof.
  intros H Hn Hc Hlen.
  rewrite (resolver_converged fuel self new_pdu w nb cb e1 a H Hn Hc).
  assert ((length cb =? 1)%nat = false) as -> by (apply Nat.eqb_neq; lia).
  cbn [fst]. rewrite resolve_with_conflict_res.
  destruct (max_power nb) as [pn|]; [|reflexivity].
  destruct (max_power cb) as [pc|]; [|reflexivity].
  rewrite verdict_first_unequal.
  destruct (first_unequal _ _ _ _ _ _); reflexivity.
Qed.

End Resolver.

(** ** The lock around the two entry points *)

Section Locking.

Context {Env : Type}.
Implicit Types (self : StateHandler Env) (w : World Env) (new_pdu : PDU).

Lemma lock_acquired key w :
  lock_free key w ->
  bind new_Deferred (fun d => _lock key d) w = (Ret tt, locked key w).
Proof.
  intros H. unfold bind, new_Deferred, _lock, await, locked. simpl.
  unfold lock_free in H.
  destruct (_update_deferreds w !! key) as [d|]; [|reflexivity].
  destruct (decide (d ∈ called w)); [reflexivity | contradiction].
Qed.

Lemma lock_taken key w :
  lock_free key w ->
  _lock key (deferreds w) (allocated w) = (Ret tt, locked key w).
Proof.
  intros H. unfold _lock, await, lock_free in *. cbn.
  destruct (_update_deferreds w !! key) as [d|]; [|reflexivity].
  destruct (decide (d ∈ called w)); [reflexivity | contradiction].
Qed.

Lemma lock_outcome key (d : nat) w :
  log (snd (_lock key d w)) = log w /\
  env (snd (_lock key d w)) = env w /\
  (fst (_lock key d w) = Ret tt \/ fst (_lock key d w) = Blocked).
Proof.
  unfold _lock, await.
  destruct (_update_deferreds w !! key) as [d0|]; cbn.
  - destruct (decide (d0 ∈ called w)); cbn; auto.
  - auto.
Qed.

Lemma callback_fresh d w :
  d ∉ called w -> callback d w = (Ret tt, released d w).
Proof.
  intros H. unfold callback. destruct (decide (d ∈ called w)); [contradiction|].
  reflexivity.
Qed.

(** [finally: new_deferred.callback(None)] *)
Lemma try_finally_callback {A} (body : M Env A) (d : nat) w :
  log (snd (try_finally body (callback d) w)) = log (snd (body w)) /\
  _update_deferreds (snd (try_finally body (callback d) w))
  = _update_deferreds (snd (body w)) /\
  (exited (fst (try_finally body (callback d) w)) = true ->
   d ∈ called (snd (try_finally body (callback d) w))) /\
  (forall a, fst (try_finally body (callback d) w) = Ret a -> fst (body w) = Ret a) /\
  (exited (fst (body w)) = true ->
   exited (fst (try_finally body (callback d) w)) = true).
Proof.
  unfold try_finally, callback.
  destruct (body w) as [[a|err| |] w']; cbn [fst snd];
    try destruct (decide (d ∈ called w')); cbn [fst snd log _update_deferreds called exited];
    repeat split; try discriminate; try set_solver; congruence.
Qed.

Lemma lock_registers {A} (Q : Call -> bool) key (d : nat) (k : unit -> M Env A) w :
  (forall u, issues Q (k u)) ->
  _update_deferreds (snd (bind (_lock key d) k w)) !! key = Some d.
Proof.
  intros Hk. unfold bind, _lock, await.
  destruct (_update_deferreds w !! key) as [d0|].
  - destruct (decide (d0 ∈ called _)).
    + destruct (k tt _) as [o w'] eqn:E.
      destruct (Hk _ _ _ _ E) as (Ht & _). cbn [snd]. rewrite Ht. cbn.
      apply lookup_insert_eq.
    + cbn. apply lookup_insert_eq.
  - destruct (k tt _) as [o w'] eqn:E.
    destruct (Hk _ _ _ _ E) as (Ht & _). cbn [snd]. rewrite Ht. cbn.
    apply lookup_insert_eq.
Qed.

Lemma handle_new_state_unfold fuel self new_pdu cbk w :
  handle_new_state fuel self new_pdu cbk w
  = try_finally (bind (_lock (key_of new_pdu) (deferreds w))
                      (fun _ => resolve_and_notify fuel self new_pdu cbk))
                (callback (deferreds w)) (allocated w).
Proof. reflexivity. Qed.

Lemma handle_new_event_unfold self event cb w :
  handle_new_event self event cb w
  = try_finally (bind (_lock (event_key event) (deferreds w))
                      (fun _ => fill_and_admit self event cb))
                (callback (deferreds w)) (allocated w).
Proof. reflexivity. Qed.

Lemma handle_new_state_winner fuel self new_pdu cbk w w2 :
  lock_free (key_of new_pdu) w ->
  fresh w ->
  _handle_new_state fuel self new_pdu (locked (key_of new_pdu) w) = (Ret true, w2) ->
  fst (handle_new_state fuel self new_pdu cbk w) = after_callback cbk new_pdu w2.
Proof.
  intros Hfree Hfresh Hres.
  pose proof (issues__handle_new_state fuel self new_pdu _ _ _ Hres)
    as (_ & _ & Hc & _).
  unfold handle_new_state, after_callback. fold (key_of new_pdu).
  unfold bind at 1, new_Deferred. simpl. unfold try_finally.
  unfold bind at 1, _lock, await. simpl.
  assert (Hlock :
    match _update_deferreds w !! key_of new_pdu with
    | Some d =>
        if decide (d ∈ called w)
        then (Ret tt, locked (key_of new_pdu) w)
        else (Blocked, locked (key_of new_pdu) w)
    | None => (Ret tt, locked (key_of new_pdu) w)
    end = (Ret tt, locked (key_of new_pdu) w)).
  { unfold lock_free in Hfree.
    destruct (_update_deferreds w !! key_of new_pdu) as [d|]; [|reflexivity].
    destruct (decide (d ∈ called w)); [reflexivity | contradiction]. }
  unfold locked in Hlock at 1 2 3. simpl in Hlock. rewrite Hlock. clear Hlock.
  unfold bind at 1. rewrite Hres.
  destruct cbk as [cb|].
  - unfold bind at 1.
    destruct (maybeDeferred (CallNewStateCallback new_pdu) cb new_pdu w2)
      as [r w3] eqn:Ecb.
    pose proof (issues_maybeDeferred (CallNewStateCallback new_pdu) cb new_pdu
                  eq_refl _ _ _ Ecb) as (_ & _ & Hc3 & _).
    assert (Hd : deferreds w ∉ called w3).
    { rewrite Hc3, Hc. exact Hfresh. }
    simpl. destruct r as [[]|e| |]; simpl;
      try rewrite (callback_fresh _ _ Hd); reflexivity.
  - unfold bind, ret. simpl.
    assert (Hd : deferreds w ∉ called w2) by (rewrite Hc; exact Hfresh).
    rewrite (callback_fresh _ _ Hd). reflexivity.
Qed.

Lemma maybeDeferred_log {X} c (cb : Callback Env X) (x : X) w :
  is_callback c = true ->
  exists l, log (snd (maybeDeferred c cb x w)) = log w ++ l /\
            forallb callback_call l = true /\
            count is_callback l = 1%nat.
Proof.
  intros Hc. unfold maybeDeferred, bind, call.
  destruct (cb x (env w)) as [[[g|]|err|] e']; cbn [of_reply].
  - cbn [logged env]. destruct (g e') as [r e'']. cbn [snd logged log].
    exists [c; CallCallbackResult]. rewrite <- app_assoc.
    unfold count, callback_call. cbn. rewrite Hc. cbn. auto.
  - exists [c]. unfold count, callback_call. cbn. rewrite Hc. auto.
  - exists [c]. unfold count, callback_call. cbn. rewrite Hc. auto.
  - exists [c]. unfold count, callback_call. cbn. rewrite Hc. auto.
Qed.

End Locking.

(** ** The scenarios of the specification *)

(** The scenarios of the specification: the branch of [B] carries power 20
    against 10, so [B] wins on the first comparator whatever the lengths. *)
Example scenario_power_decides :
  fst (_handle_new_state 1 (Scenario.handler_of (fun _ =>
         Done ([Scenario.B; Scenario.B1; Scenario.C],
               [Scenario.A; Scenario.A1; Scenario.C])))
         Scenario.B (initial_world 0%nat)) = Ret true.
Proof. vm_compute. reflexivity. Qed.

(** The second scenario of the specification: equal power, equal length, the
    digest decides, and it decides the same way every time. *)
Example scenario_hash_decides :
  fst (_handle_new_state 1
         (Scenario.handler_of (fun _ =>
            Done ([Scenario.B; Scenario.C], [Scenario.A; Scenario.C])))
         Scenario.B (initial_world 0%nat)) = Ret true /\
  digest_of [Scenario.B; Scenario.C] = "920021bddfc61e93b959c672ccd43a273a4bd4e3"%string /\
  digest_of [Scenario.A; Scenario.C] = "5eef98791c9e47a61543cc0850a77079454e7b7f"%string.
Proof. vm_compute. repeat split; reflexivity. Qed.

(** When the new PDU is itself the common ancestor, the first comparator has
    nothing to take a maximum of. *)
Example scenario_new_is_ancestor :
  fst (_handle_new_state 1 (Scenario.handler_of (fun _ =>
         Done ([Scenario.C], [Scenario.A; Scenario.A1; Scenario.C])))
         Scenario.C (initial_world 0%nat)) = Raise ValueError.
Proof. vm_compute. reflexivity. Qed.

(** With a callback, the verdict [True] reaches the caller only if what the
    callback answers can be called in turn. *)
Example first_writer_with_callbacks :
  let h := Scenario.handler_of (fun _ => Done ([Scenario.B], [])) in
  fst (handle_new_state 1 h Scenario.B (Some Scenario.accept) (initial_world 0%nat))
  = Ret true /\
  fst (handle_new_state 1 h Scenario.B (Some Scenario.plain) (initial_world 0%nat))
  = Raise TypeError /\
  fst (handle_new_state 1 h Scenario.B (Some Scenario.reject) (initial_world 0%nat))
  = Raise (Failure "rejected").
Proof. vm_compute. repeat split; reflexivity. Qed.

(** The run on the script of three gaps: three fetches, the second for the
    new branch's side because the two oldest PDUs have the same depth. *)
Example gap_script_run :
  let r := _handle_new_state 4 (Scenario.handler_of Scenario.gap_script) Scenario.B
                             (initial_world 0%nat) in
  fst r = Ret true /\
  log (snd r) =
  [CallGetUnresolvedStateTree Scenario.B;
   CallGetPdu "hs1" (Some "hs1") (Some "a1") true;
   CallGetUnresolvedStateTree Scenario.B;
   CallGetPdu "hs2" (Some "hs0") (Some "c") true;
   CallGetUnresolvedStateTree Scenario.B;
   CallGetPdu "hs1" (Some "hs0") (Some "c") true;
   CallGetUnresolvedStateTree Scenario.B].
Proof. vm_compute. split; reflexivity. Qed.

(** The exit paths of [handle_new_event] on a handler with every attribute
    set: success, a callback that raises, a callback whose answer cannot be
    called; and on a handler as [__init__] leaves it. *)
Example handle_new_event_exits :
  let w0 := initial_world 0%nat in
  let current := Some (CurrentState.mk "a" "hs1") in
  (fst (handle_new_event (Scenario.wired current) Scenario.draft Scenario.accept w0)
   = Ret tt /\
   log (snd (handle_new_event (Scenario.wired current) Scenario.draft Scenario.accept w0))
   = [CallGetLatestPdus "room";
      CallGetCurrentState "room" "m.room.topic" "";
      CallAdmissionCallback
        (Event.mk "room" "m.room.topic" "" "e1" ["c@hs0"%string] 2
                  (Some "a"%string) (Some "hs1"%string));
      CallCallbackResult;
      CallUpdateCurrentState "e1" "hs1" "room" "m.room.topic" ""]) /\
  fst (handle_new_event (Scenario.wired current) Scenario.draft Scenario.reject w0)
  = Raise (Failure "rejected") /\
  fst (handle_new_event (Scenario.wired current) Scenario.draft Scenario.plain w0)
  = Raise TypeError /\
  fst (handle_new_event (Scenario.handler_of (fun _ => Done ([], [])))
                        Scenario.draft Scenario.accept w0)
  = Raise (AttributeError "service").
Proof. vm_compute. repeat split; reflexivity. Qed.

(** ** The resolver's decision table *)

Section Decisions.

Context {Env : Type}.
Implicit Types (self : StateHandler Env) (w : World Env) (new_pdu : PDU).
Implicit Types (nb cb : Branch) (e : Env).

(** C6 (first writer): when persistence answers the tree query with an
    empty current branch, the resolver returns [True] after that single
    query, whatever the new branch holds; [handle_new_state] then returns
    [True] as soon as the callback, if one was given, has completed. *)
Theorem first_writer_wins fuel self new_pdu cbk w nb e1 :
  tree_query self new_pdu (env w) = (Done (nb, []), e1) ->
  lock_free (key_of new_pdu) w ->
  fresh w ->
  _handle_new_state (S fuel) self new_pdu w = (Ret true, queried new_pdu e1 w) /\
  fst (handle_new_state (S fuel) self new_pdu cbk w) =
  after_callback cbk new_pdu (queried new_pdu e1 (locked (key_of new_pdu) w)).
Proof.
  intros H Hfree Hfresh. split.
  - now apply resolver_no_current with (nb := nb).
  - apply handle_new_state_winner; try assumption.
    now apply resolver_no_current with (nb := nb).
Qed.


(** C2 (order of the comparators): when the branches end in the same PDU
    and the current branch is longer than 1, the resolver returns [True]
    exactly when the first unequal pair among (max power level without the
    last element, number of elements, SHA-1 hex digest), taken in that
    order, has the greater score on the new branch, and [False] exactly
    when it has the smaller one; an equal pair passes the decision on. *)
Theorem tiebreak_order fuel self new_pdu w nb cb e1 a :
  tree_query self new_pdu (env w) = (Done (nb, cb), e1) ->
  last nb = Some a ->
  last cb = Some a ->
  (1 < length cb)%nat ->
  (fst (_handle_new_state (S fuel) self new_pdu w) = Ret true <->
   exists pn pc, max_power nb = Some pn /\ max_power cb = Some pc /\
     first_unequal pn pc (len nb) (len cb) (digest_of nb) (digest_of cb) = Gt) /\
  (fst (_handle_new_state (S fuel) self new_pdu w) = Ret false <->
   exists pn pc, max_power nb = Some pn /\ max_power cb = Some pc /\
     first_unequal pn pc (len nb) (len cb) (digest_of nb) (digest_of cb) = Lt).
Proof.
  intros H Hn Hc Hlen.
  rewrite (resolver_tiebreak fuel self new_pdu w nb cb e1 a H Hn Hc Hlen).
  destruct (max_power nb) as [pn|], (max_power cb) as [pc|].
  2-4: split; (split; [discriminate | intros (? & ? & ? & ? & ?); congruence]).
  split; split.
  - intros E. exists pn, pc. repeat split.
    destruct (first_unequal _ _ _ _ _ _); congruence.
  - intros (? & ? & [= <-] & [= <-] & ->). reflexivity.
  - intros E. exists pn, pc. repeat split.
    destruct (first_unequal _ _ _ _ _ _); congruence.
  - intros (? & ? & [= <-] & [= <-] & ->). reflexivity.
Qed.

(** C1, amended (the tiebreak decides unless all three pairs are equal):
    for branches that end in the same PDU, with a current branch longer
    than 1 and a maximum power level on both sides, whenever the power
    levels, the lengths or the digests differ the resolver returns the
    verdict of the first unequal pair in the order power level, chain
    length, digest; "Conflict resolution failed." is raised exactly when
    the three pairs are equal. *)
Theorem tiebreak_decides_unless_all_equal fuel self new_pdu w nb cb e1 a pn pc :
  tree_query self new_pdu (env w) = (Done (nb, cb), e1) ->
  last nb = Some a ->
  last cb = Some a ->
  (1 < length cb)%nat ->
  max_power nb = Some pn ->
  max_power cb = Some pc ->
  (pn <> pc \/ length nb <> length cb \/ digest_of nb <> digest_of cb ->
   exists v, fst (_handle_new_state (S fuel) self new_pdu w) = Ret v /\
     first_unequal pn pc (len nb) (len cb) (digest_of nb) (digest_of cb)
     = (if v then Gt else Lt)) /\
  (fst (_handle_new_state (S fuel) self new_pdu w) = Raise conflict_failed <->
   pn = pc /\ length nb = length cb /\ digest_of nb = digest_of cb).
Proof.
  intros H Hn Hc Hlen Hpn Hpc.
  rewrite (resolver_tiebreak fuel self new_pdu w nb cb e1 a H Hn Hc Hlen).
  rewrite Hpn, Hpc.
  pose proof (first_unequal_eq pn pc (len nb) (len cb) (digest_of nb) (digest_of cb))
    as Heq.
  assert (Hl : len nb = len cb <-> length nb = length cb).
  { unfold len. lia. }
  split.
  - intros Hdiff.
    destruct (first_unequal _ _ _ _ _ _) eqn:E.
    + exfalso. destruct Heq as [Heq _]. destruct (Heq eq_refl) as (Hp & Hln & Hh).
      apply Hl in Hln. tauto.
    + exists false. split; reflexivity.
    + exists true. split; reflexivity.
  - destruct (first_unequal _ _ _ _ _ _) eqn:E.
    + split; [intros _ | reflexivity].
      destruct Heq as [Heq _]. destruct (Heq eq_refl) as (Hp & Hln & Hh).
      apply Hl in Hln. auto.
    + split; [discriminate|]. intros (Hp & Hln & Hh). apply Hl in Hln.
      destruct Heq as [_ Heq]. specialize (Heq (conj Hp (conj Hln Hh))). discriminate Heq.
    + split; [discriminate|]. intros (Hp & Hln & Hh). apply Hl in Hln.
      destruct Heq as [_ Heq]. specialize (Heq (conj Hp (conj Hln Hh))). discriminate Heq.
Qed.

(** C3 (divergent branches): when the branches end in different PDUs, the
    resolver takes the one of the two with the greater depth (the new
    branch's on a tie), issues one [get_pdu] with that PDU's origin as the
    destination, its [prev_state_origin] and [prev_state_id] as the PDU
    asked for and [outlier=True], and, once the fetch has completed, runs
    the whole resolution again, starting with a new tree query. *)
Theorem divergent_branches_fetch_then_rerun fuel self new_pdu w nb cb e1 a b :
  tree_query self new_pdu (env w) = (Done (nb, cb), e1) ->
  last nb = Some a ->
  last cb = Some b ->
  a <> b ->
  exists m,
    m = (if depth a <? depth b then b else a) /\
    depth m = Z.max (depth a) (depth b) /\
    _handle_new_state (S fuel) self new_pdu w
    = after_fetch fuel self new_pdu m (queried new_pdu e1 w) /\
    (forall r e2,
        get_pdu (_replication self)
                (origin m) (prev_state_origin m) (prev_state_id m) true e1
        = (Done r, e2) ->
        (0 < fuel)%nat ->
        exists l,
          log (snd (_handle_new_state (S fuel) self new_pdu w))
          = log w ++
            [CallGetUnresolvedStateTree new_pdu;
             CallGetPdu (origin m) (prev_state_origin m) (prev_state_id m) true;
             CallGetUnresolvedStateTree new_pdu] ++ l).
Proof.
  intros H Hn Hc Hab.
  exists (missing_prev_of a b).
  assert (Hm : missing_prev_of a b = (if depth a <? depth b then b else a)).
  { reflexivity. }
  split; [exact Hm|].
  split.
  { rewrite Hm. destruct (Z.ltb_spec (depth a) (depth b)); lia. }
  assert (Hrun : _handle_new_state (S fuel) self new_pdu w
                 = after_fetch fuel self new_pdu (missing_prev_of a b)
                               (queried new_pdu e1 w)).
  { rewrite (resolver_diverged fuel self new_pdu w nb cb e1 a b H Hn Hc Hab).
    apply fetch_then_rerun. }
  split; [exact Hrun|].
  intros r e2 Hfetch Hfuel. rewrite Hrun. unfold after_fetch.
  cbn [queried logged env]. rewrite Hfetch.
  destruct fuel as [|fuel']; [lia|].
  destruct (resolver_log_head fuel' self new_pdu
              (logged (CallGetPdu (origin (missing_prev_of a b))
                                  (prev_state_origin (missing_prev_of a b))
                                  (prev_state_id (missing_prev_of a b)) true)
                      e2 (queried new_pdu e1 w))) as (l & Hl).
  exists l. rewrite Hl. unfold logged, queried, logged. cbn [log].
  rewrite <- !app_assoc. reflexivity.
Qed.

(** C4, amended (which side is fetched): when the oldest PDU of the new
    branch has a strictly lower depth than the oldest PDU of the current
    branch, the fetch is issued for the current branch's side: the
    predecessor of the current branch's oldest PDU, asked from that PDU's
    origin. *)
Theorem lower_depth_new_branch_fetches_current_side
        fuel self new_pdu w nb cb e1 a b :
  tree_query self new_pdu (env w) = (Done (nb, cb), e1) ->
  last nb = Some a ->
  last cb = Some b ->
  depth a < depth b ->
  _handle_new_state (S fuel) self new_pdu w
  = after_fetch fuel self new_pdu b (queried new_pdu e1 w) /\
  exists l,
    log (snd (_handle_new_state (S fuel) self new_pdu w))
    = log w ++
      [CallGetUnresolvedStateTree new_pdu;
       CallGetPdu (origin b) (prev_state_origin b) (prev_state_id b) true] ++ l /\
    forallb resolver_call l = true.
Proof.
  intros H Hn Hc Hlt.
  assert (Hab : a <> b) by (intros ->; lia).
  assert (Hm : missing_prev_of a b = b).
  { unfold missing_prev_of. cbn [max_from].
    apply Z.ltb_lt in Hlt. now rewrite Hlt. }
  assert (Hrun : _handle_new_state (S fuel) self new_pdu w
                 = after_fetch fuel self new_pdu b (queried new_pdu e1 w)).
  { rewrite (resolver_diverged fuel self new_pdu w nb cb e1 a b H Hn Hc Hab).
    rewrite Hm. apply fetch_then_rerun. }
  split; [exact Hrun|].
  rewrite Hrun. unfold after_fetch.
  destruct (get_pdu _ _ _ _ _ _) as [[r|err|] e2].
  - destruct (_handle_new_state fuel self new_pdu _) as [o w'] eqn:E.
    destruct (issues__handle_new_state _ _ _ _ _ _ E) as (_ & _ & _ & l & Hl & HQ).
    exists l. split; [|exact HQ]. cbn [snd]. rewrite Hl.
    unfold logged, queried, logged. cbn [log]. now rewrite <- !app_assoc.
  - exists []. split; [|reflexivity]. cbn [snd].
    unfold logged, queried, logged. cbn [log]. now rewrite <- !app_assoc.
  - exists []. split; [|reflexivity]. cbn [snd].
    unfold logged, queried, logged. cbn [log]. now rewrite <- !app_assoc.
Qed.

End Decisions.

Lemma first_writer_wins_witness :
  tree_query (Scenario.handler_of (fun _ => Done ([Scenario.B], []))) Scenario.B 0%nat
  = (Done ([Scenario.B], []), 0%nat) /\
  fst (handle_new_state 1 (Scenario.handler_of (fun _ => Done ([Scenario.B], [])))
                        Scenario.B None (initial_world 0%nat)) = Ret true.
Proof.
  split; [reflexivity|].
  refine (proj2 (first_writer_wins 0 (Scenario.handler_of (fun _ => Done ([Scenario.B], [])))
                   Scenario.B None (initial_world 0%nat) [Scenario.B] 0%nat
                   eq_refl _ _)).
  - exact I.
  - apply not_elem_of_empty.
Defined.



Lemma tiebreak_order_witness :
  (fst (_handle_new_state 1
          (Scenario.handler_of (fun _ =>
             Done ([Scenario.B; Scenario.B1; Scenario.C],
                   [Scenario.A; Scenario.A1; Scenario.C])))
          Scenario.B (initial_world 0%nat)) = Ret true <->
   exists pn pc,
     max_power [Scenario.B; Scenario.B1; Scenario.C] = Some pn /\
     max_power [Scenario.A; Scenario.A1; Scenario.C] = Some pc /\
     first_unequal pn pc
       (len [Scenario.B; Scenario.B1; Scenario.C])
       (len [Scenario.A; Scenario.A1; Scenario.C])
       (digest_of [Scenario.B; Scenario.B1; Scenario.C])
       (digest_of [Scenario.A; Scenario.A1; Scenario.C]) = Gt).
Proof.
  refine (proj1 (tiebreak_order 0
    (Scenario.handler_of (fun _ =>
       Done ([Scenario.B; Scenario.B1; Scenario.C],
             [Scenario.A; Scenario.A1; Scenario.C])))
    Scenario.B (initial_world 0%nat)
    [Scenario.B; Scenario.B1; Scenario.C] [Scenario.A; Scenario.A1; Scenario.C]
    0%nat Scenario.C eq_refl eq_refl eq_refl _)).
  simpl. lia.
Defined.

(** C1 as worded fails twice.  On the first pair of branches all three
    comparators are strict, not exactly one.  The second pair differs (in the
    identifier and the origin of the newest PDU) and yet no comparator is
    strict, so the resolver raises "Conflict resolution failed.". *)
Lemma tiebreak_not_exactly_one :
  ([Scenario.B; Scenario.B1; Scenario.C] <> [Scenario.A; Scenario.C] /\
   last [Scenario.B; Scenario.B1; Scenario.C] = last [Scenario.A; Scenario.C] /\
   (1 < length [Scenario.A; Scenario.C])%nat /\
   strict_count [Scenario.B; Scenario.B1; Scenario.C] [Scenario.A; Scenario.C] = 3%nat) /\
  ([Scenario.X; Scenario.C] <> [Scenario.Y; Scenario.C] /\
   last [Scenario.X; Scenario.C] = last [Scenario.Y; Scenario.C] /\
   (1 < length [Scenario.Y; Scenario.C])%nat /\
   strict_count [Scenario.X; Scenario.C] [Scenario.Y; Scenario.C] = 0%nat /\
   fst (_handle_new_state 1
          (Scenario.handler_of (fun _ =>
             Done ([Scenario.X; Scenario.C], [Scenario.Y; Scenario.C])))
          Scenario.X (initial_world 0%nat)) = Raise conflict_failed).
Proof.
  split.
  - split; [discriminate|]. split; [reflexivity|]. split; [simpl; lia|].
    vm_compute. reflexivity.
  - split; [discriminate|]. split; [reflexivity|]. split; [simpl; lia|].
    split; vm_compute; reflexivity.
Qed.

Lemma tiebreak_decides_unless_all_equal_witness :
  exists v,
    fst (_handle_new_state 1
           (Scenario.handler_of (fun _ =>
              Done ([Scenario.B; Scenario.C], [Scenario.A; Scenario.C])))
           Scenario.B (initial_world 0%nat)) = Ret v /\
    first_unequal 10 10
      (len [Scenario.B; Scenario.C]) (len [Scenario.A; Scenario.C])
      (digest_of [Scenario.B; Scenario.C]) (digest_of [Scenario.A; Scenario.C])
    = (if v then Gt else Lt).
Proof.
  refine (proj1 (tiebreak_decides_unless_all_equal 0
    (Scenario.handler_of (fun _ =>
       Done ([Scenario.B; Scenario.C], [Scenario.A; Scenario.C])))
    Scenario.B (initial_world 0%nat)
    [Scenario.B; Scenario.C] [Scenario.A; Scenario.C]
    0%nat Scenario.C 10 10 eq_refl eq_refl eq_refl _ eq_refl eq_refl) _).
  - simpl. lia.
  - right. right. vm_compute. discriminate.
Defined.

Lemma divergent_branches_fetch_then_rerun_witness :
  exists m,
    m = Scenario.A /\
    depth m = Z.max (depth Scenario.B1) (depth Scenario.A) /\
    _handle_new_state 4 (Scenario.handler_of Scenario.gap_script) Scenario.B
                      (initial_world 0%nat)
    = after_fetch 3 (Scenario.handler_of Scenario.gap_script) Scenario.B m
                  (queried Scenario.B 0%nat (initial_world 0%nat)).
Proof.
  destruct (divergent_branches_fetch_then_rerun 3
              (Scenario.handler_of Scenario.gap_script) Scenario.B
              (initial_world 0%nat) [Scenario.B; Scenario.B1] [Scenario.A] 0%nat
              Scenario.B1 Scenario.A eq_refl eq_refl eq_refl)
    as (m & Hm & Hd & Hrun & _).
  - discriminate.
  - exists m. repeat split; assumption.
Defined.

(** C4 as worded fails: the oldest PDU of the new branch, [B1], has depth 4,
    the oldest PDU of the current branch, [A], has depth 5, and the one fetch
    of the run asks [A]'s origin for [A]'s predecessor, not [B1]'s origin for
    [B1]'s. *)
Lemma lower_depth_fetch_is_not_for_new_side :
  last [Scenario.B; Scenario.B1] = Some Scenario.B1 /\
  last [Scenario.A] = Some Scenario.A /\
  depth Scenario.B1 < depth Scenario.A /\
  List.filter is_fetch
    (log (snd (_handle_new_state 2 (Scenario.handler_of Scenario.one_gap) Scenario.B
                                 (initial_world 0%nat))))
  = [fetch_call Scenario.A] /\
  fetch_call Scenario.A <> fetch_call Scenario.B1.
Proof.
  split; [reflexivity|]. split; [reflexivity|]. split; [reflexivity|].
  split; [vm_compute; reflexivity | discriminate].
Qed.

Lemma lower_depth_new_branch_fetches_current_side_witness :
  depth Scenario.B1 < depth Scenario.A /\
  _handle_new_state 2 (Scenario.handler_of Scenario.one_gap) Scenario.B
                    (initial_world 0%nat)
  = after_fetch 1 (Scenario.handler_of Scenario.one_gap) Scenario.B Scenario.A
                (queried Scenario.B 0%nat (initial_world 0%nat)).
Proof.
  split; [reflexivity|].
  refine (proj1 (lower_depth_new_branch_fetches_current_side 1
                   (Scenario.handler_of Scenario.one_gap) Scenario.B
                   (initial_world 0%nat) [Scenario.B; Scenario.B1] [Scenario.A] 0%nat
                   Scenario.B1 Scenario.A eq_refl eq_refl eq_refl _)).
  reflexivity.
Defined.

(** ** Termination of the gap filling *)

Section Termination.

Context {Env : Type}.
Variables (self : StateHandler Env) (new_pdu : PDU).
Implicit Types (w : World Env) (e : Env).

Lemma round_with_gap fuel w nb cb e1 m :
  tree_query self new_pdu (env w) = (Done (nb, cb), e1) ->
  gap (nb, cb) = Some m ->
  _handle_new_state (S fuel) self new_pdu w
  = after_fetch fuel self new_pdu m (queried new_pdu e1 w).
Proof.
  intros H Hg. destruct (gap_some _ _ _ Hg) as (a & b & Hn & Hc & Hab & ->).
  rewrite (resolver_diverged fuel self new_pdu w nb cb e1 a b H Hn Hc Hab).
  apply fetch_then_rerun.
Qed.

Lemma round_without_gap w r e1 :
  tree_query self new_pdu (env w) = (r, e1) ->
  (forall t, r = Done t -> gap t = None) ->
  exists o, o <> OutOfFuel /\
    forall fuel,
      _handle_new_state (S fuel) self new_pdu w = (o, queried new_pdu e1 w).
Proof.
  intros H Hg. unfold tree_query in H.
  assert (Hstep : forall k : Branch * Branch -> M Env bool,
    bind (call (CallGetUnresolvedStateTree new_pdu)
               (get_unresolved_state_tree (_persistence self) new_pdu)) k w
    = match r with
      | Done t => k t (queried new_pdu e1 w)
      | Failed err => (Raise err, queried new_pdu e1 w)
      | Hung => (Blocked, queried new_pdu e1 w)
      end).
  { intros k. unfold bind, call. rewrite H. destruct r; reflexivity. }
  destruct r as [[nb cb]|err|].
  2: { exists (Raise err). split; [discriminate|]. intros fuel.
       cbn [_handle_new_state]. now rewrite Hstep. }
  2: { exists Blocked. split; [discriminate|]. intros fuel.
       cbn [_handle_new_state]. now rewrite Hstep. }
  specialize (Hg _ eq_refl). unfold gap in Hg. cbn [fst snd] in Hg.
  destruct cb as [|c cb].
  { exists (Ret true). split; [discriminate|]. intros fuel.
    cbn [_handle_new_state]. now rewrite Hstep. }
  destruct (last nb) as [a|] eqn:Hn.
  2: { exists (Raise IndexError). split; [discriminate|]. intros fuel.
       cbn [_handle_new_state]. rewrite Hstep.
       unfold py_last. rewrite Hn. reflexivity. }
  destruct (last (c :: cb)) as [b|] eqn:Hc.
  2: { exists (Raise IndexError). split; [discriminate|]. intros fuel.
       cbn [_handle_new_state]. rewrite Hstep.
       unfold py_last. rewrite Hn, Hc. reflexivity. }
  destruct (decide (a = b)) as [<-|]; [|discriminate].
  exists (if (length (c :: cb) =? 1)%nat then Ret true
          else of_exc (resolve_with conflict_res nb (c :: cb))).
  split.
  { destruct (length (c :: cb) =? 1)%nat; [discriminate|].
    destruct (resolve_with conflict_res nb (c :: cb)); discriminate. }
  intros fuel.
  apply (resolver_converged fuel self new_pdu w nb (c :: cb) e1 a); assumption.
Qed.

Lemma resolves_without_gap w r e1 :
  tree_query self new_pdu (env w) = (r, e1) ->
  (forall t, r = Done t -> gap t = None) ->
  resolves_within self new_pdu 0 w.
Proof.
  intros H Hg fuel Hfuel.
  destruct fuel as [|fuel]; [lia|].
  destruct (round_without_gap w r e1 H Hg) as (o & Ho & E).
  rewrite (E fuel), (E 0%nat). cbn [fst snd]. repeat split.
  - exact Ho.
  - exists [CallGetUnresolvedStateTree new_pdu]. split; reflexivity.
Qed.

Lemma resolves_after_failed_fetch w nb cb e1 m :
  tree_query self new_pdu (env w) = (Done (nb, cb), e1) ->
  gap (nb, cb) = Some m ->
  (forall r e2, fetch self m e1 <> (Done r, e2)) ->
  resolves_within self new_pdu 1 w.
Proof.
  intros H Hg Hfail fuel Hfuel.
  destruct fuel as [|fuel]; [lia|].
  rewrite !(round_with_gap _ w nb cb e1 m H Hg).
  unfold after_fetch. unfold fetch in Hfail. cbn [queried logged env].
  destruct (get_pdu _ _ _ _ _ _) as [[r|err|] e2].
  - exfalso. now apply (Hfail r e2).
  - cbn [fst snd]. repeat split; [discriminate|].
    exists [CallGetUnresolvedStateTree new_pdu;
            CallGetPdu (origin m) (prev_state_origin m) (prev_state_id m) true].
    split; [|reflexivity].
    unfold queried, logged. cbn [log]. now rewrite <- app_assoc.
  - cbn [fst snd]. repeat split; [discriminate|].
    exists [CallGetUnresolvedStateTree new_pdu;
            CallGetPdu (origin m) (prev_state_origin m) (prev_state_id m) true].
    split; [|reflexivity].
    unfold queried, logged. cbn [log]. now rewrite <- app_assoc.
Qed.

Lemma resolves_after_fetch N w nb cb e1 m r e2 :
  tree_query self new_pdu (env w) = (Done (nb, cb), e1) ->
  gap (nb, cb) = Some m ->
  fetch self m e1 = (Done r, e2) ->
  resolves_within self new_pdu N (logged (fetch_call m) e2 (queried new_pdu e1 w)) ->
  resolves_within self new_pdu (S N) w.
Proof.
  intros H Hg Hfetch Hrest fuel Hfuel.
  destruct fuel as [|fuel]; [lia|].
  rewrite !(round_with_gap _ w nb cb e1 m H Hg).
  unfold after_fetch. unfold fetch in Hfetch. cbn [queried logged env].
  rewrite Hfetch.
  destruct (Hrest fuel ltac:(lia)) as (Hsame & Hfuel' & l & Hl & Hcount).
  unfold fetch_call, queried, logged in *. cbn [env log] in *.
  repeat split; try assumption.
  exists ([CallGetUnresolvedStateTree new_pdu;
           CallGetPdu (origin m) (prev_state_origin m) (prev_state_id m) true] ++ l).
  split.
  - rewrite Hl. now rewrite <- !app_assoc.
  - unfold count in *. cbn. now rewrite Hcount.
Qed.

(** A chain of [N] gaps resolves within [N] fetch rounds. *)
Lemma gap_chain_resolves N w :
  gap_chain self new_pdu N (env w) = true -> resolves_within self new_pdu N w.
Proof.
  revert w. induction N as [|N IH]; intros w; cbn [gap_chain];
    destruct (tree_query self new_pdu (env w)) as [r e1] eqn:H.
  - intros Hc. apply (resolves_without_gap w r e1 H).
    intros t ->. destruct (gap t); [discriminate | reflexivity].
  - destruct r as [t| |]; try discriminate.
    destruct (gap t) as [m|] eqn:Hg; [|discriminate].
    destruct (fetch self m e1) as [[r|err|] e2] eqn:Hf; try discriminate.
    intros Hc. destruct t as [nb cb].
    apply (resolves_after_fetch N w nb cb e1 m r e2 H Hg Hf).
    apply IH. exact Hc.
Qed.

Lemma resolves_within_unique N N' w :
  resolves_within self new_pdu N w -> resolves_within self new_pdu N' w -> N = N'.
Proof.
  intros H H'.
  destruct (H (S (N + N')) ltac:(lia)) as (_ & _ & l & Hl & Hc).
  destruct (H' (S (N + N')) ltac:(lia)) as (_ & _ & l' & Hl' & Hc').
  rewrite Hl in Hl'. apply app_inv_head in Hl'. congruence.
Qed.

Lemma resolves_by_measure (E : nat) :
  bounded_by self new_pdu E ->
  fetch_grows_branch self new_pdu ->
  forall k w,
    (forall nb cb e1 m,
        tree_query self new_pdu (env w) = (Done (nb, cb), e1) ->
        gap (nb, cb) = Some m ->
        (E < length nb + length cb + k)%nat) ->
    exists N, (N <= k)%nat /\ resolves_within self new_pdu N w.
Proof.
  intros Hbound Hgrow k.
  induction k as [|k IH]; intros w Hk;
    destruct (tree_query self new_pdu (env w)) as [r e1] eqn:H.
  - exists 0%nat. split; [lia|].
    apply (resolves_without_gap w r e1 H).
    intros [nb cb] ->. destruct (gap (nb, cb)) as [m|] eqn:Hg; [|reflexivity].
    specialize (Hk nb cb e1 m eq_refl Hg).
    specialize (Hbound _ _ _ _ H). lia.
  - destruct r as [[nb cb]|err|].
    2,3: exists 0%nat; split; [lia|];
         apply (resolves_without_gap w _ e1 H); intros t; discriminate.
    destruct (gap (nb, cb)) as [m|] eqn:Hg.
    2: { exists 0%nat. split; [lia|].
         apply (resolves_without_gap w _ e1 H). now intros t [= <-]. }
    destruct (fetch self m e1) as [[r|err|] e2] eqn:Hf.
    + destruct (IH (logged (fetch_call m) e2 (queried new_pdu e1 w)))
        as (N & HN & Hres).
      { cbn [logged env]. intros nb' cb' e3 m' H' Hg'.
        specialize (Hk nb cb e1 m eq_refl Hg).
        destruct (Hgrow _ _ _ _ _ _ _ _ _ _ H Hg Hf H') as (? & ? & ?). lia. }
      exists (S N). split; [lia|].
      now apply (resolves_after_fetch N w nb cb e1 m r e2).
    + exists 1%nat. split; [lia|].
      apply (resolves_after_failed_fetch w nb cb e1 m H Hg).
      intros r e2'. rewrite Hf. discriminate.
    + exists 1%nat. split; [lia|].
      apply (resolves_after_failed_fetch w nb cb e1 m H Hg).
      intros r e2'. rewrite Hf. discriminate.
Qed.

(** C5, amended (gap-fill termination): if the branches persistence
    answers with hold at most [E] PDUs together and every fetch that
    completes makes the next answer grow at least one branch and shrink
    none, then the recursion of the resolver ends after
    some number [N <= E] of fetch rounds: fuel above [N] never runs out.
    And whenever [N] gaps in a row are followed by a round without gap,
    the resolution takes exactly these [N] fetch rounds. *)
Theorem gap_fill_terminates (E : nat) w :
  bounded_by self new_pdu E ->
  fetch_grows_branch self new_pdu ->
  (exists N, (N <= E)%nat /\ resolves_within self new_pdu N w) /\
  (forall N, gap_chain self new_pdu N (env w) = true -> resolves_within self new_pdu N w /\ (N <= E)%nat).
Proof.
  intros Hbound Hgrow.
  assert (Hex : exists N, (N <= E)%nat /\ resolves_within self new_pdu N w).
  { apply (resolves_by_measure E Hbound Hgrow E w).
    intros nb cb e1 m _ Hg. pose proof (gap_nonempty _ _ _ Hg). lia. }
  split; [exact Hex|].
  intros N Hchain. pose proof (gap_chain_resolves N w Hchain) as Hres.
  split; [exact Hres|].
  destruct Hex as (N' & HN' & Hres').
  now rewrite (resolves_within_unique N N' w Hres Hres').
Qed.

End Termination.

Lemma gap_script_bounded :
  bounded_by (Scenario.handler_of Scenario.gap_script) Scenario.B 6.
Proof.
  intros e nb cb e1 H. unfold tree_query in H. cbn in H.
  destruct e as [|[|[|e]]]; cbn in H; injection H as <- <- _; simpl; lia.
Defined.

Lemma gap_script_grows :
  fetch_grows_branch (Scenario.handler_of Scenario.gap_script) Scenario.B.
Proof.
  intros e nb cb e1 m r e2 nb' cb' e3 H Hg Hf H'.
  unfold tree_query in H, H'. unfold fetch in Hf. cbn in H, H', Hf.
  injection Hf as _ <-.
  destruct e as [|[|[|e]]]; cbn in H; injection H as <- <- <-;
    cbn in H'; injection H' as <- <- _;
    try (vm_compute in Hg; discriminate Hg); simpl; lia.
Defined.

Lemma gap_fill_terminates_witness :
  gap_chain (Scenario.handler_of Scenario.gap_script) Scenario.B 3 0%nat = true /\
  resolves_within (Scenario.handler_of Scenario.gap_script) Scenario.B 3
                  (initial_world 0%nat) /\
  (3 <= 6)%nat.
Proof.
  split; [vm_compute; reflexivity|].
  refine (proj2 (gap_fill_terminates (Scenario.handler_of Scenario.gap_script) Scenario.B
                   6 (initial_world 0%nat) gap_script_bounded gap_script_grows) 3%nat _).
  vm_compute. reflexivity.
Defined.

Lemma flip_script_never_resolves (fuel : nat) (w : World nat) :
  fst (_handle_new_state fuel (Scenario.handler_of Scenario.flip_script) Scenario.B w)
  = OutOfFuel.
Proof.
  revert w. induction fuel as [|fuel IH]; intros w; [reflexivity|].
  destruct (Nat.even (env w)) eqn:Ev.
  - rewrite (round_with_gap (Scenario.handler_of Scenario.flip_script) Scenario.B
               fuel w [Scenario.B; Scenario.B1] [Scenario.A] (env w) Scenario.A).
    + unfold after_fetch. cbn [Scenario.handler_of __init__ _replication
        Scenario.replication get_pdu]. apply IH.
    + unfold tree_query. cbn. unfold Scenario.flip_script. now rewrite Ev.
    + reflexivity.
  - rewrite (round_with_gap (Scenario.handler_of Scenario.flip_script) Scenario.B
               fuel w [Scenario.B] [Scenario.A; Scenario.A1] (env w) Scenario.B).
    + unfold after_fetch. cbn [Scenario.handler_of __init__ _replication
        Scenario.replication get_pdu]. apply IH.
    + unfold tree_query. cbn. unfold Scenario.flip_script. now rewrite Ev.
    + reflexivity.
Qed.

(** C5 as worded fails: the branches of this store never hold more than 3
    PDUs together and every fetch that completes makes the next answer grow
    one of them, yet the other branch shrinks each time, the branches never
    meet, and the recursion of the resolver outlasts every fuel. *)
Lemma growing_one_branch_does_not_end_the_recursion :
  bounded_by (Scenario.handler_of Scenario.flip_script) Scenario.B 3 /\
  fetch_grows_some_branch (Scenario.handler_of Scenario.flip_script) Scenario.B /\
  forall fuel,
    fst (_handle_new_state fuel (Scenario.handler_of Scenario.flip_script) Scenario.B
                           (initial_world 0%nat)) = OutOfFuel.
Proof.
  split; [|split].
  - intros e nb cb e1 H. unfold tree_query in H. cbn in H.
    unfold Scenario.flip_script in H.
    destruct (Nat.even e); injection H as <- <- _; simpl; lia.
  - intros e nb cb e1 m r e2 nb' cb' e3 H Hg Hf H'.
    assert (Ht : forall e0,
      tree_query (Scenario.handler_of Scenario.flip_script) Scenario.B e0
      = (Scenario.flip_script e0, e0)) by reflexivity.
    assert (Hfe : forall m0 e0,
      fetch (Scenario.handler_of Scenario.flip_script) m0 e0 = (Done tt, S e0))
      by reflexivity.
    rewrite Ht in H. pose proof (f_equal snd H) as He. cbn [snd] in He. subst e1.
    rewrite Hfe in Hf. pose proof (f_equal snd Hf) as He. cbn [snd] in He. subst e2.
    rewrite Ht in H'. unfold Scenario.flip_script in H, H'.
    rewrite Nat.even_succ, <- Nat.negb_even in H'.
    destruct (Nat.even e) eqn:Ev; cbn [negb] in H';
      inversion H; inversion H'; subst; simpl; lia.
  - intros fuel. apply flip_script_never_resolves.
Qed.

(** ** The lock is released on every exit *)

Section Release.

Context {Env : Type}.
Implicit Types (self : StateHandler Env) (w : World Env) (new_pdu : PDU).

(** C8 (guaranteed release): whenever [handle_new_state] or
    [handle_new_event] returns or raises, the deferred the call created
    and registered under its key has been called. *)
Theorem lock_released_on_every_exit fuel self new_pdu cbk event cb w :
  (exited (fst (handle_new_state fuel self new_pdu cbk w)) = true ->
   _update_deferreds (snd (handle_new_state fuel self new_pdu cbk w)) !! key_of new_pdu
   = Some (deferreds w) /\
   deferreds w ∈ called (snd (handle_new_state fuel self new_pdu cbk w))) /\
  (exited (fst (handle_new_event self event cb w)) = true ->
   _update_deferreds (snd (handle_new_event self event cb w)) !! event_key event
   = Some (deferreds w) /\
   deferreds w ∈ called (snd (handle_new_event self event cb w))).
Proof.
  split.
  - rewrite handle_new_state_unfold.
    destruct (try_finally_callback
                (bind (_lock (key_of new_pdu) (deferreds w))
                      (fun _ => resolve_and_notify fuel self new_pdu cbk))
                (deferreds w) (allocated w)) as (_ & Ht & Hc & _).
    intros Hex. split; [|now apply Hc].
    rewrite Ht.
    apply (lock_registers (fun c => resolver_call c || callback_call c)).
    intros _. apply issues_resolve_and_notify.
  - rewrite handle_new_event_unfold.
    destruct (try_finally_callback
                (bind (_lock (event_key event) (deferreds w))
                      (fun _ => fill_and_admit self event cb))
                (deferreds w) (allocated w)) as (_ & Ht & Hc & _).
    intros Hex. split; [|now apply Hc].
    rewrite Ht.
    apply (lock_registers any_call).
    intros _. apply issues_fill_and_admit.
Qed.

End Release.

Lemma lock_released_on_every_exit_witness :
  (_update_deferreds
     (snd (handle_new_state 1 (Scenario.handler_of (fun _ => Done ([Scenario.B], [])))
                            Scenario.B (Some Scenario.reject) (initial_world 0%nat)))
   !! key_of Scenario.B = Some 0%nat /\
   0%nat ∈ called
     (snd (handle_new_state 1 (Scenario.handler_of (fun _ => Done ([Scenario.B], [])))
                            Scenario.B (Some Scenario.reject) (initial_world 0%nat)))) /\
  (_update_deferreds
     (snd (handle_new_event (Scenario.wired (Some (CurrentState.mk "a" "hs1")))
                            Scenario.draft Scenario.reject (initial_world 0%nat)))
   !! event_key Scenario.draft = Some 0%nat /\
   0%nat ∈ called
     (snd (handle_new_event (Scenario.wired (Some (CurrentState.mk "a" "hs1")))
                            Scenario.draft Scenario.reject (initial_world 0%nat)))).
Proof.
  pose proof (lock_released_on_every_exit 1
                (Scenario.handler_of (fun _ => Done ([Scenario.B], [])))
                Scenario.B (Some Scenario.reject)
                Scenario.draft Scenario.reject (initial_world 0%nat)) as [H1 _].
  pose proof (lock_released_on_every_exit 1
                (Scenario.wired (Some (CurrentState.mk "a" "hs1")))
                Scenario.B None
                Scenario.draft Scenario.reject (initial_world 0%nat)) as [_ H2].
  split; [apply H1 | apply H2]; reflexivity.
Defined.

(** ** What replicated-state admission calls *)

Section Admission.

Context {Env : Type}.
Implicit Types (self : StateHandler Env) (w : World Env) (new_pdu : PDU).

(** C9 (no update of the stored state): the calls [handle_new_state]
    issues are tree queries, fetches, the callback and the call of what
    the callback answered; [update_current_state] is never among them, and
    the callback is called once when the resolver said [True] and a
    callback was given, and not at all otherwise. *)
Theorem replicated_admission_never_updates fuel self new_pdu cbk w :
  exists l,
    log (snd (handle_new_state fuel self new_pdu cbk w)) = log w ++ l /\
    forallb (fun c => resolver_call c || callback_call c) l = true /\
    count is_update l = 0%nat /\
    count is_callback l =
      match resolver_verdict fuel self new_pdu w, cbk with
      | Ret true, Some _ => 1%nat
      | _, _ => 0%nat
      end.
Proof.
  assert (Hupd : forall l,
    forallb (fun c => resolver_call c || callback_call c) l = true ->
    count is_update l = 0%nat).
  { intros l. apply count_none. intros []; cbn; congruence. }
  assert (Hres : forall l, forallb resolver_call l = true ->
    count is_callback l = 0%nat).
  { intros l. apply count_none. intros []; cbn; congruence. }
  cut (exists l,
    log (snd (handle_new_state fuel self new_pdu cbk w)) = log w ++ l /\
    forallb (fun c => resolver_call c || callback_call c) l = true /\
    count is_callback l =
      match resolver_verdict fuel self new_pdu w, cbk with
      | Ret true, Some _ => 1%nat
      | _, _ => 0%nat
      end).
  { intros (l & H1 & H2 & H3). exists l. auto. }
  rewrite handle_new_state_unfold.
  destruct (try_finally_callback
              (bind (_lock (key_of new_pdu) (deferreds w))
                    (fun _ => resolve_and_notify fuel self new_pdu cbk))
              (deferreds w) (allocated w)) as (Hlog & _).
  rewrite Hlog. clear Hlog.
  unfold resolver_verdict. unfold bind at 1. unfold bind at 1.
  destruct (lock_outcome (key_of new_pdu) (deferreds w) (allocated w))
    as (Hl & _ & Ho).
  destruct (_lock (key_of new_pdu) (deferreds w) (allocated w)) as [o w1].
  cbn [fst snd] in *. change (log (allocated w)) with (log w) in Hl.
  destruct Ho as [-> | ->].
  2: { exists []. rewrite app_nil_r. cbn [snd fst]. auto. }
  unfold resolve_and_notify, bind at 1.
  destruct (_handle_new_state fuel self new_pdu w1) as [v w2] eqn:E.
  destruct (issues__handle_new_state _ _ _ _ _ _ E) as (_ & _ & _ & l1 & Hl1 & HQ1).
  cbn [fst].
  assert (Hdone : exists l,
    log w2 = log w ++ l /\
    forallb (fun c => resolver_call c || callback_call c) l = true /\
    count is_callback l = 0%nat).
  { exists l1. rewrite Hl1, Hl. repeat split; [|now apply Hres].
    rewrite forallb_forall in *. intros c Hc. now rewrite (HQ1 c Hc). }
  destruct v as [[|]|err| |]; cbn [snd]; try exact Hdone.
  destruct cbk as [cb|]; [|exact Hdone].
  unfold bind at 1.
  destruct (maybeDeferred_log (CallNewStateCallback new_pdu) cb new_pdu w2 eq_refl)
    as (l2 & Hl2 & HQ2 & Hc2).
  destruct (maybeDeferred (CallNewStateCallback new_pdu) cb new_pdu w2) as [r w3].
  cbn [snd] in Hl2.
  exists (l1 ++ l2). split; [|split].
  - destruct r as [[]|err| |]; cbn [snd ret]; rewrite Hl2, Hl1, Hl;
      now rewrite app_assoc.
  - rewrite forallb_app. apply andb_true_iff. split.
    + rewrite forallb_forall in *. intros c Hc. now rewrite (HQ1 c Hc).
    + rewrite forallb_forall in *. intros c Hc. rewrite (HQ2 c Hc).
      apply orb_true_r.
  - rewrite count_app, Hc2, (Hres l1 HQ1). reflexivity.
Qed.

End Admission.

(** ** Admission of a local event without a current state *)

Section EventAdmission.

Context {Env : Type}.
Implicit Types (self : StateHandler Env) (w : World Env) (event : Event.t).

Lemma fill_and_admit_without_state self event cb w1 :
  no_current_state self event (env w1) ->
  (forall u, fst (fill_and_admit self event cb w1) <> Ret u) /\
  (exists l, log (snd (fill_and_admit self event cb w1)) = log w1 ++ l /\
             forallb lookup_call l = true) /\
  (forall svc results e1,
      service self = Some svc ->
      get_latest_pdus_in_context svc (Event.room_id event) (env w1)
      = (Done results, e1) ->
      fst (fill_and_admit self event cb w1) = Raise (AttributeError "pdu_id")).
Proof.
  intros Hnone.
  destruct (fill_and_admit self event cb w1) as [o w'] eqn:E. cbn [fst snd].
  unfold fill_and_admit in E.
  destruct (service self) as [svc|] eqn:Hsvc; cbn [getattr] in E.
  2: { unfold bind, raise in E. injection E as <- <-. repeat split.
       - discriminate.
       - exists []. now rewrite app_nil_r.
       - discriminate. }
  unfold bind at 1, ret in E. unfold bind at 1 in E. unfold call at 1 in E.
  destruct (get_latest_pdus_in_context svc (Event.room_id event) (env w1))
    as [r e1] eqn:Hlatest.
  destruct r as [results|err|]; cbn [of_reply] in E.
  2,3: injection E as <- <-; repeat split;
       [ discriminate
       | exists [CallGetLatestPdus (Event.room_id event)]; split; reflexivity
       | intros svc' results' e1' [= <-] Hl; rewrite Hlatest in Hl;
         discriminate Hl ].
  unfold bind at 1 in E. unfold call at 1 in E.
  cbn [logged env event_key key_context key_type key_state_key] in E.
  pose proof (Hnone svc results e1 Hsvc Hlatest) as Hcur.
  destruct (get_current_state (_persistence self) (Event.room_id event)
              (Event.type event) (Event.state_key event) e1) as [r e2].
  cbn [fst] in Hcur. subst r. cbn [of_reply getattr] in E.
  unfold bind, raise in E. injection E as <- <-.
  cbn [logged log]. repeat split.
  - discriminate.
  - exists [CallGetLatestPdus (Event.room_id event);
            CallGetCurrentState (Event.room_id event) (Event.type event)
                                (Event.state_key event)].
    rewrite <- app_assoc. split; reflexivity.
Qed.

(** C10 (no current state, no admission): when the [get_current_state] of
    a call answers [None] for the slot of the event, [handle_new_event]
    does not return; it calls neither the admission callback nor
    [update_current_state]; and once it holds the lock and has the latest
    PDUs of the room, it raises the [AttributeError] of reading [pdu_id]
    off [None]. *)
Theorem no_current_state_fails_admission self event cb w :
  no_current_state self event (env w) ->
  (forall u, fst (handle_new_event self event cb w) <> Ret u) /\
  (exists l, log (snd (handle_new_event self event cb w)) = log w ++ l /\
             count is_callback l = 0%nat /\ count is_update l = 0%nat) /\
  (forall svc results e1,
      service self = Some svc ->
      get_latest_pdus_in_context svc (Event.room_id event) (env w)
      = (Done results, e1) ->
      lock_free (event_key event) w ->
      fresh w ->
      fst (handle_new_event self event cb w) = Raise (AttributeError "pdu_id")).
Proof.
  intros Hnone. rewrite handle_new_event_unfold.
  destruct (try_finally_callback
              (bind (_lock (event_key event) (deferreds w))
                    (fun _ => fill_and_admit self event cb))
              (deferreds w) (allocated w)) as (Hlog & _ & _ & Hret & _).
  split; [|split].
  - intros u Hu. apply Hret in Hu. unfold bind in Hu.
    destruct (lock_outcome (event_key event) (deferreds w) (allocated w))
      as (_ & He & Ho).
    destruct (_lock (event_key event) (deferreds w) (allocated w)) as [o w1].
    cbn [fst snd] in Ho, He. change (env (allocated w)) with (env w) in He.
    destruct Ho as [-> | ->]; [|discriminate Hu].
    rewrite <- He in Hnone.
    now apply (proj1 (fill_and_admit_without_state self event cb w1 Hnone) u).
  - rewrite Hlog. unfold bind.
    destruct (lock_outcome (event_key event) (deferreds w) (allocated w))
      as (Hl & He & Ho).
    destruct (_lock (event_key event) (deferreds w) (allocated w)) as [o w1].
    cbn [fst snd] in *. change (log (allocated w)) with (log w) in Hl.
    change (env (allocated w)) with (env w) in He.
    destruct Ho as [-> | ->].
    2: { exists []. cbn [snd]. rewrite app_nil_r. auto. }
    rewrite <- He in Hnone.
    destruct (fill_and_admit_without_state self event cb w1 Hnone)
      as (_ & (l & Hl1 & HQ) & _).
    exists l. rewrite Hl1, Hl. split; [reflexivity|].
    split; apply (count_none _ lookup_call); try assumption;
      intros []; cbn; congruence.
  - intros svc results e1 Hsvc Hlatest Hfree Hfresh.
    unfold try_finally, bind. rewrite (lock_taken _ _ Hfree).
    destruct (fill_and_admit_without_state self event cb
                (locked (event_key event) w) Hnone) as (_ & _ & Hraise).
    specialize (Hraise svc results e1 Hsvc Hlatest).
    destruct (fill_and_admit self event cb (locked (event_key event) w))
      as [o w2] eqn:E.
    cbn [fst] in Hraise. subst o.
    destruct (issues_fill_and_admit _ _ _ _ _ _ E) as (_ & _ & Hc & _).
    rewrite callback_fresh; [reflexivity|].
    rewrite Hc. exact Hfresh.
Qed.

End EventAdmission.

Lemma no_current_state_fails_admission_witness :
  no_current_state Scenario.late_store Scenario.draft 0%nat /\
  fst (handle_new_event Scenario.late_store Scenario.draft Scenario.accept
                        (initial_world 0%nat))
  = Raise (AttributeError "pdu_id").
Proof.
  assert (H : no_current_state Scenario.late_store Scenario.draft 0%nat).
  { intros svc results e1 Hsvc Hlatest. cbn in Hsvc. injection Hsvc as <-.
    cbn in Hlatest. injection Hlatest as _ <-. reflexivity. }
  split; [exact H|].
  refine (proj2 (proj2 (no_current_state_fails_admission Scenario.late_store
                          Scenario.draft Scenario.accept (initial_world 0%nat) H))
                _ [("c"%string, "hs0"%string, 1)] 0%nat eq_refl eq_refl _ _).
  - exact I.
  - apply not_elem_of_empty.
Defined.

(** The same store one fetch later: the slot is filled and the admission
    goes through. *)
Example late_store_filled :
  fst (handle_new_event Scenario.late_store Scenario.draft Scenario.accept
                        (initial_world 1%nat)) = Ret tt.
Proof. vm_compute. reflexivity. Qed.

(** * Part III: further properties of the code *)

(** ** The tiebreak as an order on branches *)

Lemma first_unequal_swap (pn pc ln lc : Z) (hn hc : string) :
  first_unequal pc pn lc ln hc hn = CompOpp (first_unequal pn pc ln lc hn hc).
Proof.
  unfold first_unequal.
  rewrite (Z.compare_antisym pn pc), (Z.compare_antisym ln lc),
    (String.compare_antisym hc hn).
  destruct (pn ?= pc); cbn [CompOpp]; try reflexivity.
  destruct (ln ?= lc); cbn [CompOpp]; reflexivity.
Qed.

(** X1 (the tiebreak is antisymmetric): running the three comparators with
    the two branches exchanged gives the opposite verdict, and fails exactly
    when the original run fails, with the same exception. *)
Theorem tiebreak_antisymmetric (nb cb : Branch) :
  resolve_with conflict_res cb nb =
  match resolve_with conflict_res nb cb with
  | Ok v => Ok (negb v)
  | Err e => Err e
  end.
Proof.
  rewrite !resolve_with_conflict_res.
  destruct (max_power nb) as [pn|], (max_power cb) as [pc|]; try reflexivity.
  rewrite !verdict_first_unequal, first_unequal_swap.
  destruct (first_unequal pn pc (len nb) (len cb) (digest_of nb) (digest_of cb));
    reflexivity.
Qed.

Lemma string_compare_gt_trans (a b c : string) :
  String.compare a b = Gt -> String.compare b c = Gt -> String.compare a c = Gt.
Proof.
  intros Hab Hbc.
  rewrite String.compare_antisym in Hab, Hbc.
  apply CompOpp_iff in Hab, Hbc. cbn [CompOpp] in Hab, Hbc.
  rewrite String.compare_antisym. apply CompOpp_iff. cbn [CompOpp].
  apply OrderedTypeEx.String_as_OT.cmp_lt.
  apply OrderedTypeEx.String_as_OT.cmp_lt in Hab, Hbc.
  exact (OrderedTypeEx.String_as_OT.lt_trans _ _ _ Hbc Hab).
Qed.

Lemma first_unequal_gt_trans (p1 p2 p3 l1 l2 l3 : Z) (h1 h2 h3 : string) :
  first_unequal p1 p2 l1 l2 h1 h2 = Gt ->
  first_unequal p2 p3 l2 l3 h2 h3 = Gt ->
  first_unequal p1 p3 l1 l3 h1 h3 = Gt.
Proof.
  unfold first_unequal.
  destruct (Z.compare_spec p1 p2) as [E12|L12|G12]; try discriminate;
    destruct (Z.compare_spec p2 p3) as [E23|L23|G23]; try discriminate;
    destruct (Z.compare_spec p1 p3) as [E13|L13|G13]; try lia; try reflexivity.
  destruct (Z.compare_spec l1 l2) as [F12|M12|H12]; try discriminate;
    destruct (Z.compare_spec l2 l3) as [F23|M23|H23]; try discriminate;
    destruct (Z.compare_spec l1 l3) as [F13|M13|H13]; try lia; try reflexivity.
  apply string_compare_gt_trans.
Qed.

(** X2 (the tiebreak is transitive): if the comparators make a first branch
    win against a second and the second win against a third, they make the
    first win against the third. *)
Theorem tiebreak_transitive (b1 b2 b3 : Branch) :
  resolve_with conflict_res b1 b2 = Ok true ->
  resolve_with conflict_res b2 b3 = Ok true ->
  resolve_with conflict_res b1 b3 = Ok true.
Proof.
  rewrite !resolve_with_conflict_res.
  destruct (max_power b1) as [p1|]; [|discriminate].
  destruct (max_power b2) as [p2|]; [|discriminate].
  destruct (max_power b3) as [p3|]; [|discriminate].
  rewrite !verdict_first_unequal.
  destruct (first_unequal p1 p2 _ _ _ _) eqn:E12; try discriminate.
  destruct (first_unequal p2 p3 _ _ _ _) eqn:E23; try discriminate.
  intros _ _. now rewrite (first_unequal_gt_trans _ _ _ _ _ _ _ _ _ E12 E23).
Qed.

Lemma tiebreak_transitive_witness :
  resolve_with conflict_res
    [Scenario.B; Scenario.B1; Scenario.C] [Scenario.A; Scenario.A1; Scenario.C]
  = Ok true /\
  resolve_with conflict_res [Scenario.A; Scenario.A1; Scenario.C] low_power_branch
  = Ok true /\
  resolve_with conflict_res [Scenario.B; Scenario.B1; Scenario.C] low_power_branch
  = Ok true.
Proof.
  assert (H1 : resolve_with conflict_res
                 [Scenario.B; Scenario.B1; Scenario.C]
                 [Scenario.A; Scenario.A1; Scenario.C] = Ok true)
    by (vm_compute; reflexivity).
  assert (H2 : resolve_with conflict_res
                 [Scenario.A; Scenario.A1; Scenario.C] low_power_branch = Ok true)
    by (vm_compute; reflexivity).
  split; [exact H1|]. split; [exact H2|].
  exact (tiebreak_transitive _ _ _ H1 H2).
Defined.

(** ** The scores and the edges of the comparators *)

Lemma max_from_attained {A} (key : A -> Z) (rest : list A) (best : A) :
  In (max_from key best rest) (best :: rest) /\
  forall x, In x (best :: rest) -> key x <= key (max_from key best rest).
Proof.
  revert best. induction rest as [|y rest IH]; intros best; cbn [max_from].
  - split; [left; reflexivity|]. intros x [<-|[]]. lia.
  - destruct (IH (if key best <? key y then y else best)) as [Hin Hmax]. split.
    + destruct Hin as [Hin|Hin]; [|right; right; exact Hin].
      rewrite <- Hin. destruct (key best <? key y); [right; left | left]; reflexivity.
    + intros x Hx.
      assert (Hb : key best <= key (if key best <? key y then y else best) /\
                   key y <= key (if key best <? key y then y else best)).
      { destruct (Z.ltb_spec (key best) (key y)); lia. }
      destruct Hx as [<-|[<-|Hx]].
      * etransitivity; [apply Hb|]. apply Hmax. left; reflexivity.
      * etransitivity; [apply Hb|]. apply Hmax. left; reflexivity.
      * apply Hmax. right; exact Hx.
Qed.

(** X3 (what the power-level comparator scores): when it answers, each
    score is the power level of a PDU of its branch other than the last one,
    and no PDU of that branch other than the last one has a greater power
    level; the last PDU of a branch never counts. *)
Theorem power_level_scores (nb cb : Branch) (a b : Score) :
  _do_power_level_conflict_res nb cb = Ok (a, b) ->
  (exists p, In p (removelast nb) /\ a = SInt (power_level p) /\
             forall p', In p' (removelast nb) -> power_level p' <= power_level p) /\
  (exists q, In q (removelast cb) /\ b = SInt (power_level q) /\
             forall q', In q' (removelast cb) -> power_level q' <= power_level q).
Proof.
  unfold _do_power_level_conflict_res, py_max, exc_bind.
  destruct (removelast nb) as [|x xs]; [discriminate|].
  destruct (removelast cb) as [|y ys]; [discriminate|].
  intros [= <- <-].
  destruct (max_from_attained power_level xs x) as [Hx1 Hx2].
  destruct (max_from_attained power_level ys y) as [Hy1 Hy2].
  split; eexists; (split; [eassumption|]); split; auto.
Qed.

Lemma power_level_scores_witness :
  exists p,
    In p (removelast [Scenario.B; Scenario.B1; Scenario.C]) /\
    SInt 20 = SInt (power_level p) /\
    forall p', In p' (removelast [Scenario.B; Scenario.B1; Scenario.C]) ->
               power_level p' <= power_level p.
Proof.
  exact (proj1 (power_level_scores
                  [Scenario.B; Scenario.B1; Scenario.C]
                  [Scenario.A; Scenario.A1; Scenario.C] (SInt 20) (SInt 10) eq_refl)).
Defined.

Section Edges.

Context {Env : Type}.
Implicit Types (self : StateHandler Env) (w : World Env) (new_pdu : PDU).
Implicit Types (nb cb : Branch) (e : Env).

(** X4 (a new branch that is only the common ancestor): when the new branch
    consists of the PDU the current branch ends in and the current branch
    is longer than 1, the resolver raises [ValueError], the [max] of the
    power-level comparator having nothing to range over; no comparator gets
    to decide and nothing is fetched. *)
Theorem lone_ancestor_raises_ValueError fuel self new_pdu w a cb e1 :
  tree_query self new_pdu (env w) = (Done ([a], cb), e1) ->
  last cb = Some a ->
  (1 < length cb)%nat ->
  _handle_new_state (S fuel) self new_pdu w = (Raise ValueError, queried new_pdu e1 w).
Proof.
  intros H Hc Hlen.
  rewrite (resolver_converged fuel self new_pdu w [a] cb e1 a H eq_refl Hc).
  assert ((length cb =? 1)%nat = false) as -> by (apply Nat.eqb_neq; lia).
  rewrite resolve_with_conflict_res. reflexivity.
Qed.

(** X5 (an empty new branch): when the current branch is not empty and the
    new branch is, the resolver raises [IndexError] on [new_branch[-1]]
    right after the tree query. *)
Theorem empty_new_branch_raises_IndexError fuel self new_pdu w c cb e1 :
  tree_query self new_pdu (env w) = (Done ([], c :: cb), e1) ->
  _handle_new_state (S fuel) self new_pdu w = (Raise IndexError, queried new_pdu e1 w).
Proof.
  intros H. cbn [_handle_new_state]. unfold bind at 1. unfold call.
  unfold tree_query in H. rewrite H. reflexivity.
Qed.

(** X6 (the shape of the resolver's calls): whatever the collaborators
    answer, the calls of one resolution are rounds of a tree query for the
    PDU being resolved followed by one fetch with [outlier=True], closed by
    at most one more such tree query; there are no more rounds than the
    recursion is deep. *)
Theorem resolver_calls_alternate fuel self new_pdu w :
  exists ms tail,
    log (snd (_handle_new_state fuel self new_pdu w))
    = log w ++ rounds_log new_pdu ms ++ tail /\
    (tail = [] \/ tail = [CallGetUnresolvedStateTree new_pdu]) /\
    (length ms <= fuel)%nat.
Proof.
  revert w. induction fuel as [|fuel IH]; intros w.
  { exists [], []. cbn. rewrite app_nil_r. auto. }
  destruct (tree_query self new_pdu (env w)) as [r e1] eqn:H.
  assert (Hquiet : (forall t, r = Done t -> gap t = None) ->
    exists ms tail,
      log (snd (_handle_new_state (S fuel) self new_pdu w))
      = log w ++ rounds_log new_pdu ms ++ tail /\
      (tail = [] \/ tail = [CallGetUnresolvedStateTree new_pdu]) /\
      (length ms <= S fuel)%nat).
  { intros Hg. destruct (round_without_gap self new_pdu w r e1 H Hg) as (o & _ & E).
    rewrite (E fuel). exists [], [CallGetUnresolvedStateTree new_pdu].
    cbn. split; [reflexivity|]. split; [auto | lia]. }
  destruct r as [[nb cb]|err|]; try (apply Hquiet; intros t; discriminate).
  destruct (gap (nb, cb)) as [m|] eqn:Hg.
  2: { apply Hquiet. now intros t [= <-]. }
  rewrite (round_with_gap self new_pdu fuel w nb cb e1 m H Hg).
  unfold after_fetch. cbn [queried logged env].
  destruct (get_pdu _ _ _ _ _ _) as [[u|err|] e2].
  - destruct (IH (logged (CallGetPdu (origin m) (prev_state_origin m)
                                     (prev_state_id m) true) e2
                         (queried new_pdu e1 w))) as (ms & tail & Hl & Ht & Hn).
    exists (m :: ms), tail. rewrite Hl. unfold queried, logged. cbn [log].
    split; [|split; [exact Ht | cbn; lia]].
    unfold rounds_log, fetch_call. cbn. now rewrite <- !app_assoc.
  - exists [m], []. unfold queried, logged. cbn [snd log].
    split; [|split; [auto | cbn; lia]].
    unfold rounds_log, fetch_call. cbn. now rewrite <- !app_assoc.
  - exists [m], []. unfold queried, logged. cbn [snd log].
    split; [|split; [auto | cbn; lia]].
    unfold rounds_log, fetch_call. cbn. now rewrite <- !app_assoc.
Qed.

End Edges.

Lemma lone_ancestor_raises_ValueError_witness :
  last [Scenario.A; Scenario.A1; Scenario.C] = Some Scenario.C /\
  fst (_handle_new_state 1
         (Scenario.handler_of (fun _ =>
            Done ([Scenario.C], [Scenario.A; Scenario.A1; Scenario.C])))
         Scenario.C (initial_world 0%nat)) = Raise ValueError.
Proof.
  split; [reflexivity|].
  rewrite (lone_ancestor_raises_ValueError 0
             (Scenario.handler_of (fun _ =>
                Done ([Scenario.C], [Scenario.A; Scenario.A1; Scenario.C])))
             Scenario.C (initial_world 0%nat) Scenario.C
             [Scenario.A; Scenario.A1; Scenario.C] 0%nat eq_refl eq_refl).
  - reflexivity.
  - simpl. lia.
Defined.

Lemma empty_new_branch_raises_IndexError_witness :
  fst (_handle_new_state 1
         (Scenario.handler_of (fun _ => Done ([], [Scenario.A])))
         Scenario.B (initial_world 0%nat)) = Raise IndexError.
Proof.
  rewrite (empty_new_branch_raises_IndexError 0
             (Scenario.handler_of (fun _ => Done ([], [Scenario.A])))
             Scenario.B (initial_world 0%nat) Scenario.A [] 0%nat eq_refl).
  reflexivity.
Defined.

(** ** The per-key lock across calls *)

Section LockDiscipline.

Context {Env : Type}.
Implicit Types (self : StateHandler Env) (w : World Env) (new_pdu : PDU).
Implicit Types (event : Event.t).

Lemma lock_then_frame {A} (Q : Call -> bool) key (d : nat) (k : unit -> M Env A) w :
  (forall u, issues Q (k u)) ->
  _update_deferreds (snd (bind (_lock key d) k w)) = <[key := d]> (_update_deferreds w) /\
  deferreds (snd (bind (_lock key d) k w)) = deferreds w /\
  called (snd (bind (_lock key d) k w)) = called w.
Proof.
  intros Hk. unfold bind, _lock, await.
  destruct (_update_deferreds w !! key) as [d0|].
  - destruct (decide (d0 ∈ called _)).
    + destruct (k tt _) as [o w'] eqn:E.
      destruct (Hk _ _ _ _ E) as (Ht & Hd & Hc & _). cbn [snd].
      rewrite Ht, Hd, Hc. auto.
    + cbn. auto.
  - destruct (k tt _) as [o w'] eqn:E.
    destruct (Hk _ _ _ _ E) as (Ht & Hd & Hc & _). cbn [snd].
    rewrite Ht, Hd, Hc. auto.
Qed.

Lemma try_finally_callback_frame {A} (body : M Env A) (d : nat) w :
  deferreds (snd (try_finally body (callback d) w)) = deferreds (snd (body w)) /\
  (called (snd (try_finally body (callback d) w)) = called (snd (body w)) \/
   called (snd (try_finally body (callback d) w)) = {[d]} ∪ called (snd (body w))).
Proof.
  unfold try_finally, callback.
  destruct (body w) as [[a|err| |] w']; cbn [fst snd];
    try destruct (decide (d ∈ called w')); cbn [fst snd deferreds called]; auto.
Qed.

(** What a run of one of the two entry points, with body [k] under the
    lock, does to the handler's own state. *)
Lemma entry_frame {A} (Q : Call -> bool) key (k : unit -> M Env A) w :
  (forall u, issues Q (k u)) ->
  _update_deferreds
    (snd (try_finally (bind (_lock key (deferreds w)) k)
                      (callback (deferreds w)) (allocated w)))
  = <[key := deferreds w]> (_update_deferreds w) /\
  deferreds
    (snd (try_finally (bind (_lock key (deferreds w)) k)
                      (callback (deferreds w)) (allocated w)))
  = S (deferreds w) /\
  (called
     (snd (try_finally (bind (_lock key (deferreds w)) k)
                       (callback (deferreds w)) (allocated w)))
   = called w \/
   called
     (snd (try_finally (bind (_lock key (deferreds w)) k)
                       (callback (deferreds w)) (allocated w)))
   = {[deferreds w]} ∪ called w).
Proof.
  intros Hk.
  destruct (try_finally_callback (bind (_lock key (deferreds w)) k)
              (deferreds w) (allocated w)) as (_ & Ht & _).
  destruct (try_finally_callback_frame (bind (_lock key (deferreds w)) k)
              (deferreds w) (allocated w)) as (Hd & Hc).
  destruct (lock_then_frame Q key (deferreds w) k (allocated w) Hk)
    as (Ht' & Hd' & Hc').
  rewrite Ht, Hd, Ht', Hd'. rewrite Hc' in Hc. auto.
Qed.

(** X7 (a call touches its own key and its own deferred only): a run of
    [handle_new_state] or of [handle_new_event], however it ends, creates
    one deferred, registers it under the key of its PDU or event and leaves
    every other key as it was; the only deferred it may call is that one. *)
Theorem entry_points_keep_to_their_key fuel self new_pdu cbk event cb w :
  (_update_deferreds (snd (handle_new_state fuel self new_pdu cbk w))
   = <[key_of new_pdu := deferreds w]> (_update_deferreds w) /\
   deferreds (snd (handle_new_state fuel self new_pdu cbk w)) = S (deferreds w) /\
   (called (snd (handle_new_state fuel self new_pdu cbk w)) = called w \/
    called (snd (handle_new_state fuel self new_pdu cbk w))
    = {[deferreds w]} ∪ called w)) /\
  (_update_deferreds (snd (handle_new_event self event cb w))
   = <[event_key event := deferreds w]> (_update_deferreds w) /\
   deferreds (snd (handle_new_event self event cb w)) = S (deferreds w) /\
   (called (snd (handle_new_event self event cb w)) = called w \/
    called (snd (handle_new_event self event cb w))
    = {[deferreds w]} ∪ called w)).
Proof.
  split.
  - rewrite handle_new_state_unfold.
    apply (entry_frame (fun c => resolver_call c || callback_call c)).
    intros _. apply issues_resolve_and_notify.
  - rewrite handle_new_event_unfold.
    apply (entry_frame any_call).
    intros _. apply issues_fill_and_admit.
Qed.

(** X8 (a held key blocks): while the deferred registered under the key has
    not been called, a call for that key is suspended: it calls no
    collaborator and no callback, and its own deferred replaces the
    registered one. *)
Theorem held_key_blocks fuel self new_pdu cbk event cb w d d' :
  (_update_deferreds w !! key_of new_pdu = Some d -> d ∉ called w ->
   handle_new_state fuel self new_pdu cbk w = (Blocked, locked (key_of new_pdu) w)) /\
  (_update_deferreds w !! event_key event = Some d' -> d' ∉ called w ->
   handle_new_event self event cb w = (Blocked, locked (event_key event) w)).
Proof.
  split; intros Hreg Hnot.
  - rewrite handle_new_state_unfold.
    unfold try_finally, bind, _lock, await. cbn [allocated _update_deferreds called].
    rewrite Hreg. destruct (decide (d ∈ called w)); [contradiction|]. reflexivity.
  - rewrite handle_new_event_unfold.
    unfold try_finally, bind, _lock, await. cbn [allocated _update_deferreds called].
    rewrite Hreg. destruct (decide (d' ∈ called w)); [contradiction|]. reflexivity.
Qed.

Lemma ready_after_exit key (d : nat) w w' :
  numbered w ->
  idle w ->
  d = deferreds w ->
  _update_deferreds w' = <[key := d]> (_update_deferreds w) ->
  deferreds w' = S d ->
  (called w' = called w \/ called w' = {[d]} ∪ called w) ->
  d ∈ called w' ->
  numbered w' /\ idle w'.
Proof.
  intros Hnum Hidle -> Ht Hd Hc Hin. split.
  - intros x Hx. rewrite Hd.
    destruct Hc as [Hc|Hc]; rewrite Hc in Hx.
    + specialize (Hnum x Hx). lia.
    + apply elem_of_union in Hx as [Hx|Hx].
      * apply elem_of_singleton in Hx. lia.
      * specialize (Hnum x Hx). lia.
  - intros k. unfold lock_free. rewrite Ht.
    destruct (decide (key = k)) as [->|Hne].
    + rewrite lookup_insert_eq. exact Hin.
    + rewrite lookup_insert_ne by exact Hne.
      specialize (Hidle k). unfold lock_free in Hidle.
      destruct (_update_deferreds w !! k) as [d0|]; [|exact I].
      destruct Hc as [Hc|Hc]; rewrite Hc; [exact Hidle|].
      apply elem_of_union. right. exact Hidle.
Qed.

(** X9 (ready for the next caller): started in a world where no key is
    held and only created deferreds have been called, a call that returns
    or raises leaves such a world behind: the next call, for any key, finds
    the key free and a deferred of its own that nobody has called. *)
Theorem exit_leaves_handler_ready fuel self new_pdu cbk event cb w :
  numbered w ->
  idle w ->
  (exited (fst (handle_new_state fuel self new_pdu cbk w)) = true ->
   numbered (snd (handle_new_state fuel self new_pdu cbk w)) /\
   idle (snd (handle_new_state fuel self new_pdu cbk w)) /\
   fresh (snd (handle_new_state fuel self new_pdu cbk w))) /\
  (exited (fst (handle_new_event self event cb w)) = true ->
   numbered (snd (handle_new_event self event cb w)) /\
   idle (snd (handle_new_event self event cb w)) /\
   fresh (snd (handle_new_event self event cb w))).
Proof.
  intros Hnum Hidle.
  assert (Hfresh : forall w' : World Env, numbered w' -> fresh w').
  { intros w' Hn Hin. specialize (Hn _ Hin). lia. }
  split; intros Hex.
  - assert (Hready : numbered (snd (handle_new_state fuel self new_pdu cbk w)) /\
                     idle (snd (handle_new_state fuel self new_pdu cbk w))).
    { revert Hex. rewrite handle_new_state_unfold. intros Hex.
      destruct (entry_frame (fun c => resolver_call c || callback_call c)
                  (key_of new_pdu)
                  (fun _ => resolve_and_notify fuel self new_pdu cbk) w)
        as (Ht & Hd & Hc).
      { intros _. apply issues_resolve_and_notify. }
      destruct (try_finally_callback
                  (bind (_lock (key_of new_pdu) (deferreds w))
                        (fun _ => resolve_and_notify fuel self new_pdu cbk))
                  (deferreds w) (allocated w)) as (_ & _ & Hin & _).
      apply (ready_after_exit (key_of new_pdu) (deferreds w) w); auto. }
    destruct Hready as [Hn Hi]. auto.
  - assert (Hready : numbered (snd (handle_new_event self event cb w)) /\
                     idle (snd (handle_new_event self event cb w))).
    { revert Hex. rewrite handle_new_event_unfold. intros Hex.
      destruct (entry_frame any_call (event_key event)
                  (fun _ => fill_and_admit self event cb) w)
        as (Ht & Hd & Hc).
      { intros _. apply issues_fill_and_admit. }
      destruct (try_finally_callback
                  (bind (_lock (event_key event) (deferreds w))
                        (fun _ => fill_and_admit self event cb))
                  (deferreds w) (allocated w)) as (_ & _ & Hin & _).
      apply (ready_after_exit (event_key event) (deferreds w) w); auto. }
    destruct Hready as [Hn Hi]. auto.
Qed.

End LockDiscipline.

Lemma held_key_blocks_witness :
  handle_new_state 1 (Scenario.handler_of (fun _ => Done ([Scenario.B], [])))
                   Scenario.B (Some Scenario.accept) held_world
  = (Blocked, locked (key_of Scenario.B) held_world).
Proof.
  refine (proj1 (held_key_blocks 1
                   (Scenario.handler_of (fun _ => Done ([Scenario.B], [])))
                   Scenario.B (Some Scenario.accept) Scenario.draft Scenario.accept
                   held_world 0%nat 0%nat) _ _).
  - apply lookup_insert_eq.
  - apply not_elem_of_empty.
Defined.

Lemma exit_leaves_handler_ready_witness :
  fresh (snd (handle_new_state 1
                (Scenario.handler_of (fun _ => Done ([Scenario.B], [])))
                Scenario.B (Some Scenario.reject) (initial_world 0%nat))) /\
  idle (snd (handle_new_event (Scenario.wired (Some (CurrentState.mk "a" "hs1")))
                              Scenario.draft Scenario.accept (initial_world 0%nat))).
Proof.
  assert (Hnum : numbered (initial_world 0%nat)).
  { intros d Hd. exfalso. revert Hd. apply not_elem_of_empty. }
  assert (Hidle : idle (initial_world 0%nat)).
  { intros k. exact I. }
  destruct (exit_leaves_handler_ready 1
              (Scenario.handler_of (fun _ => Done ([Scenario.B], [])))
              Scenario.B (Some Scenario.reject)
              Scenario.draft Scenario.accept (initial_world 0%nat) Hnum Hidle)
    as [H1 _].
  destruct (exit_leaves_handler_ready 1
              (Scenario.wired (Some (CurrentState.mk "a" "hs1")))
              Scenario.B None
              Scenario.draft Scenario.accept (initial_world 0%nat) Hnum Hidle)
    as [_ H2].
  split.
  - apply H1. reflexivity.
  - apply H2. reflexivity.
Defined.

(** ** Admission of a local event, call by call *)

(** X10 (the depth of a new event): the depth [handle_new_event] gives the
    event is 0 when the room has no latest PDU; otherwise it is one more
    than the depth of one of the latest PDUs and greater than the depth of
    each of them. *)
Theorem next_depth_above_tips (results : list (string * string * Z)) :
  (results = [] -> next_depth results = 0) /\
  (forall r, In r results -> snd r < next_depth results) /\
  (results <> [] -> exists r, In r results /\ next_depth results = snd r + 1).
Proof.
  unfold next_depth. destruct results as [|r0 rs]; cbn [List.map].
  { split; [reflexivity|]. split; [intros r []|]. intros H. now contradiction H. }
  destruct (max_from_attained (fun x : Z => x) (List.map (fun r => snd r) rs) (snd r0))
    as [Hin Hmax].
  split; [discriminate|]. split.
  - intros r Hr.
    assert (In (snd r) (snd r0 :: List.map (fun r => snd r) rs)).
    { change (In (snd r) (List.map (fun r => snd r) (r0 :: rs))).
      apply in_map_iff. eauto. }
    specialize (Hmax _ H). lia.
  - intros _.
    change (In (max_from (fun x : Z => x) (snd r0) (List.map (fun r => snd r) rs))
               (List.map (fun r => snd r) (r0 :: rs))) in Hin.
    apply in_map_iff in Hin as (r & Hr & Hin). exists r. split; [exact Hin|]. lia.
Qed.

Section AdmissionCalls.

Context {Env : Type}.
Implicit Types (self : StateHandler Env) (w : World Env) (event : Event.t).

Lemma fill_and_admit_cases self event cb w1 o w' :
  fill_and_admit self event cb w1 = (o, w') ->
  exists l, log w' = log w1 ++ l /\
    ((count is_update l = 0%nat /\ forall u, o <> Ret u) \/
     admitted self event cb w1 l).
Proof.
  intros E. unfold fill_and_admit in E.
  unfold maybeDeferred, bind, call, getattr, ret, raise in E.
  cbn [event_key key_context key_type key_state_key] in E.
  destruct (service self) as [svc|] eqn:Hsvc.
  2: { injection E as <- <-. exists []. rewrite app_nil_r.
       split; [reflexivity|]. left. split; [reflexivity | discriminate]. }
  destruct (get_latest_pdus_in_context svc (Event.room_id event) (env w1))
    as [[results|err|] e1] eqn:Hlatest; cbn [of_reply logged env] in E.
  2,3: injection E as <- <-; eexists; (split; [reflexivity|]);
       left; split; [reflexivity | discriminate].
  destruct (get_current_state (_persistence self) (Event.room_id event)
              (Event.type event) (Event.state_key event) e1)
    as [[[cs|]|err|] e2] eqn:Hcur; cbn [of_reply logged env] in E.
  2,3,4: injection E as <- <-; unfold logged; cbn [log]; rewrite <- app_assoc;
         eexists; (split; [reflexivity|]);
         left; split; [reflexivity | discriminate].
  fold (filled event results cs) in E.
  destruct (cb (filled event results cs) e2) as [[[g|]|err|] e3] eqn:Hcb;
    cbn [of_reply logged env] in E.
  2,3,4: injection E as <- <-; unfold logged; cbn [log]; rewrite <- !app_assoc;
         eexists; (split; [reflexivity|]);
         left; split; [reflexivity | discriminate].
  destruct (g e3) as [[[]|err|] e4] eqn:Hg; cbn [of_reply logged env] in E.
  2,3: injection E as <- <-; unfold logged; cbn [log]; rewrite <- !app_assoc;
       eexists; (split; [reflexivity|]);
       left; split; [reflexivity | discriminate].
  destruct (persistence self) as [p|] eqn:Hp.
  2: { injection E as <- <-. unfold logged. cbn [log]. rewrite <- !app_assoc.
       eexists. split; [reflexivity|]. left. split; [reflexivity | discriminate]. }
  destruct (server_name self) as [name|] eqn:Hname.
  2: { injection E as <- <-. unfold logged. cbn [log]. rewrite <- !app_assoc.
       eexists. split; [reflexivity|]. left. split; [reflexivity | discriminate]. }
  destruct (update_current_state p _ _ _ _ _ _) as [r e5].
  injection E as _ <-. unfold logged. cbn [log]. rewrite <- !app_assoc.
  eexists. split; [reflexivity|]. right.
  exists svc, name, results, e1, cs, e2, g, e3.
  rewrite Hg. repeat split; eauto.
Qed.

(** X11 (what an admission calls, and in which order): in every run of
    [handle_new_event], either [update_current_state] is not called and the
    run does not return normally, or the calls are exactly these five: the
    latest PDUs of the room, the current state of the slot, the callback on
    the event filled in from these two answers, the call of what the
    callback answered, and one [update_current_state] for the event's id
    under the server's name.  So at most one update is issued, and none
    before the callback and its answer have completed. *)
Theorem admission_calls self event cb w :
  exists l,
    log (snd (handle_new_event self event cb w)) = log w ++ l /\
    ((count is_update l = 0%nat /\
      forall u, fst (handle_new_event self event cb w) <> Ret u) \/
     admitted self event cb w l).
Proof.
  rewrite handle_new_event_unfold.
  destruct (try_finally_callback
              (bind (_lock (event_key event) (deferreds w))
                    (fun _ => fill_and_admit self event cb))
              (deferreds w) (allocated w)) as (Hlog & _ & _ & Hret & _).
  rewrite Hlog.
  assert (Hbody : exists l,
    log (snd (bind (_lock (event_key event) (deferreds w))
                   (fun _ => fill_and_admit self event cb) (allocated w)))
    = log w ++ l /\
    ((count is_update l = 0%nat /\
      forall u, fst (bind (_lock (event_key event) (deferreds w))
                          (fun _ => fill_and_admit self event cb) (allocated w))
                <> Ret u) \/
     admitted self event cb w l)).
  { unfold bind.
    destruct (lock_outcome (event_key event) (deferreds w) (allocated w))
      as (Hl & He & Ho).
    destruct (_lock (event_key event) (deferreds w) (allocated w)) as [o w1].
    cbn [fst snd] in *.
    change (log (allocated w)) with (log w) in Hl.
    change (env (allocated w)) with (env w) in He.
    destruct Ho as [-> | ->].
    2: { exists []. cbn [fst snd]. rewrite app_nil_r. split; [auto|].
         left. split; [reflexivity | discriminate]. }
    destruct (fill_and_admit self event cb w1) as [o w'] eqn:E.
    destruct (fill_and_admit_cases self event cb w1 o w' E) as (l & Hl' & Hcase).
    exists l. cbn [fst snd]. rewrite Hl', Hl. split; [reflexivity|].
    destruct Hcase as [Hno | Hadm]; [left; exact Hno | right].
    unfold admitted in *. rewrite <- He. exact Hadm. }
  destruct Hbody as (l & Hl & Hcase). exists l. split; [exact Hl|].
  destruct Hcase as [[Hno Hne] | Hadm]; [left | right; exact Hadm].
  split; [exact Hno|]. intros u Hu. apply (Hne u). now apply Hret.
Qed.

End AdmissionCalls.

Section Refusals.

Context {Env : Type}.
Implicit Types (self : StateHandler Env) (w : World Env) (event : Event.t).
Implicit Types (new_pdu : PDU).



(** X13 (a handler as [__init__] leaves it): [__init__] assigns
    [_persistence], [_replication] and the dictionary of deferreds only, so
    on such a handler [handle_new_event] takes the lock, raises
    [AttributeError] on [self.service] before any call to a collaborator or
    to the callback, and releases the lock. *)
Theorem handler_from_init_cannot_admit
        (persistence_service : PersistenceService Env)
        (replication_layer : ReplicationLayer Env) event cb w :
  lock_free (event_key event) w ->
  fresh w ->
  handle_new_event (__init__ persistence_service replication_layer) event cb w
  = (Raise (AttributeError "service"),
     released (deferreds w) (locked (event_key event) w)).
Proof.
  intros Hfree Hfresh.
  rewrite handle_new_event_unfold. unfold try_finally, bind.
  rewrite (lock_taken _ _ Hfree).
  unfold fill_and_admit, bind, __init__. cbn [service getattr raise].
  rewrite callback_fresh; [reflexivity | exact Hfresh].
Qed.

(** X14 ([handle_new_state] hands on the resolver's verdict): once the lock
    is taken, a verdict [True] is returned after the callback, if there is
    one, has completed; every other end of the resolver ([False], an
    exception, a fetch that never completes) is the end of
    [handle_new_state] as it is, whether a callback was given or not. *)
Theorem handle_new_state_follows_verdict fuel self new_pdu cbk w o w2 :
  lock_free (key_of new_pdu) w ->
  fresh w ->
  _handle_new_state fuel self new_pdu (locked (key_of new_pdu) w) = (o, w2) ->
  fst (handle_new_state fuel self new_pdu cbk w)
  = match o with
    | Ret true => after_callback cbk new_pdu w2
    | _ => o
    end.
Proof.
  intros Hfree Hfresh Hres.
  destruct o as [[|]|err| |].
  - now apply handle_new_state_winner.
  - pose proof (issues__handle_new_state fuel self new_pdu _ _ _ Hres)
      as (_ & _ & Hc & _).
    rewrite handle_new_state_unfold. unfold try_finally, bind.
    rewrite (lock_taken _ _ Hfree).
    unfold resolve_and_notify, bind. rewrite Hres. unfold ret.
    rewrite callback_fresh; [reflexivity|]. rewrite Hc. exact Hfresh.
  - pose proof (issues__handle_new_state fuel self new_pdu _ _ _ Hres)
      as (_ & _ & Hc & _).
    rewrite handle_new_state_unfold. unfold try_finally, bind.
    rewrite (lock_taken _ _ Hfree).
    unfold resolve_and_notify, bind. rewrite Hres.
    rewrite callback_fresh; [reflexivity|]. rewrite Hc. exact Hfresh.
  - rewrite handle_new_state_unfold. unfold try_finally, bind.
    rewrite (lock_taken _ _ Hfree).
    unfold resolve_and_notify, bind. now rewrite Hres.
  - rewrite handle_new_state_unfold. unfold try_finally, bind.
    rewrite (lock_taken _ _ Hfree).
    unfold resolve_and_notify, bind. now rewrite Hres.
Qed.

End Refusals.


Lemma handler_from_init_cannot_admit_witness :
  fst (handle_new_event
         (__init__ (Scenario.persistence_of (fun _ => Done ([], []))
                                            (Some (CurrentState.mk "a" "hs1")))
                   Scenario.replication)
         Scenario.draft Scenario.accept (initial_world 0%nat))
  = Raise (AttributeError "service").
Proof.
  rewrite (handler_from_init_cannot_admit
             (Scenario.persistence_of (fun _ => Done ([], []))
                                      (Some (CurrentState.mk "a" "hs1")))
             Scenario.replication Scenario.draft Scenario.accept (initial_world 0%nat)).
  - reflexivity.
  - exact I.
  - apply not_elem_of_empty.
Defined.

Lemma handle_new_state_follows_verdict_witness :
  fst (handle_new_state 1
         (Scenario.handler_of (fun _ =>
            Done ([Scenario.A; Scenario.A1; Scenario.C],
                  [Scenario.B; Scenario.B1; Scenario.C])))
         Scenario.A (Some Scenario.accept) (initial_world 0%nat))
  = Ret false.
Proof.
  refine (handle_new_state_follows_verdict 1
            (Scenario.handler_of (fun _ =>
               Done ([Scenario.A; Scenario.A1; Scenario.C],
                     [Scenario.B; Scenario.B1; Scenario.C])))
            Scenario.A (Some Scenario.accept) (initial_world 0%nat)
            (Ret false) _ _ _ _).
  - exact I.
  - apply not_elem_of_empty.
  - vm_compute. reflexivity.
Defined.

Lemma next_depth_above_tips_witness :
  In ("d"%string, "hs1"%string, 4) [("c"%string, "hs0"%string, 7); ("d"%string, "hs1"%string, 4)] /\
  4 < next_depth [("c"%string, "hs0"%string, 7); ("d"%string, "hs1"%string, 4)].
Proof.
  assert (H : In ("d"%string, "hs1"%string, 4)
                 [("c"%string, "hs0"%string, 7); ("d"%string, "hs1"%string, 4)]).
  { right. left. reflexivity. }
  split; [exact H|].
  exact (proj1 (proj2 (next_depth_above_tips
                         [("c"%string, "hs0"%string, 7); ("d"%string, "hs1"%string, 4)]))
               ("d"%string, "hs1"%string, 4) H).
Defined.
